(** * Multiple dispatch ([wrap/multi_dispatch.py]): a shallow embedding

    The Python module implements a multi-argument variant of
    [functools.singledispatch].  The embedding follows the source
    function by function:

    - [_c3_merge], [_c3_mro], [_compose_mro]: the linearizer copied from
      [functools];
    - [Node], [TypeTree]: the signature trie;
    - [_find_impl], [_get_args_type], [dispatch], [register], [wrapper]:
      the closures created by [multi_dispatch], over an explicit [State]
      that holds the closure variables [registry], [dispatch_cache],
      [cache_token] and [types_cache].

    Python exceptions are values of [Exn]; a computation that may raise
    returns a [Res].  What the module asks of the classes it is given
    (their bases, [issubclass], whether they are iterable and what
    [node in cls] then does) is a [ClassEnv]. *)

From stdpp Require Import base option list strings gmap.

Set Default Proof Using "Type".
Open Scope string_scope.
Open Scope list_scope.
Open Scope nat_scope.

(** ** Python objects *)

(** A class is an opaque identity; we name it by a string. *)
Definition Cls : Type := string.

(** The builtin root class [object]. *)
Definition object : Cls := "object".

(** [IGNORE_TYPE = inspect._empty]: the class that [inspect] uses for a
    missing annotation.  It is an ordinary class object. *)
Definition IGNORE_TYPE : Cls := "_empty".

(** The objects that can occur as an annotation (an element of a
    signature): a class, a parameterized generic such as [list[int]]
    (an instance of [types.GenericAlias]), or any other object (a string,
    a [typing] construct, an instance).  All of them are taken to be
    hashable and compared by identity. *)
Inductive Obj : Type :=
  | OClass (c : Cls)
  | OAlias (repr : string)
  | OOther (repr : string).

Global Instance Obj_eq_dec : EqDecision Obj.
Proof. solve_decision. Defined.

(** ** Exceptions and results *)

Inductive Exn : Type :=
  (** [RuntimeError("Inconsistent hierarchy")], raised by [_c3_merge] *)
  | InconsistentHierarchy
  (** [TypeError("Function f already registered for cls. Use force=True
      to override.")]: carries the name of [func] and [cls] *)
  | DuplicateRegistration (func : string) (cls : list Obj)
  (** [TypeError("Invalid first argument to `register()`. cls is not a
      class.")] *)
  | InvalidSignatureElement (cls : list Obj)
  (** [TypeError("<funcname> requires at least 1 positional argument")] *)
  | NoPositionalArguments (funcname : string)
  (** [TypeError("cannot create weak reference to 'tuple' object")],
      raised by [WeakKeyDictionary] on a key that has no weak reference *)
  | NotWeakReferenceable
  (** [TypeError("'NoneType' object is not callable")] *)
  | NoneNotCallable
  (** [TypeError("argument of type 'NoneType' is not iterable")], raised
      by [part in current] when [current] is [None] *)
  | NoneNotIterable
  (** [AttributeError("'NoneType' object has no attribute 'set_seq'")] *)
  | NoneHasNoAttribute (name : string)
  (** an exception raised by code outside the module, such as the
      [__contains__] of a metaclass: its [repr] *)
  | Raised (repr : string).

Global Instance Exn_eq_dec : EqDecision Exn.
Proof. solve_decision. Defined.

(** The outcome of a computation: a value, a raised exception, or
    [OutOfFuel] when a recursion over the class graph was cut. *)
Inductive Res (A : Type) : Type :=
  | Ok (a : A)
  | Raise (e : Exn)
  | OutOfFuel.
Arguments Ok {A} a.
Arguments Raise {A} e.
Arguments OutOfFuel {A}.

Global Instance Res_ret : MRet Res := λ A a, Ok a.
Global Instance Res_bind : MBind Res := λ A B f m,
  match m with
  | Ok a => f a
  | Raise e => Raise e
  | OutOfFuel => OutOfFuel
  end.

Global Instance Res_fmap : FMap Res := λ A B f m,
  match m with
  | Ok a => Ok (f a)
  | Raise e => Raise e
  | OutOfFuel => OutOfFuel
  end.

(** ** [_c3_merge] *)

Module C3.

(** [sequences = [s for s in sequences if s]] *)
Definition purge (sequences : list (list Cls)) : list (list Cls) :=
  filter (λ s, s ≠ []) sequences.

(** [candidate in s2[1:]] for some [s2] of [sequences] *)
Definition rejected (candidate : Cls) (sequences : list (list Cls)) : bool :=
  existsb (λ s2, bool_decide (candidate ∈ tail s2)) sequences.

(** The [for s1 in sequences] loop: the head of the first sequence whose
    head is in no tail; [None] when every head is rejected. The sequences
    are not empty here (they were purged), an empty one is skipped. *)
Fixpoint find_candidate (sequences rest : list (list Cls)) : option Cls :=
  match rest with
  | [] => None
  | [] :: rest' => find_candidate sequences rest'
  | (candidate :: _) :: rest' =>
      if rejected candidate sequences
      then find_candidate sequences rest'
      else Some candidate
  end.

(** [for seq in sequences: if seq[0] == candidate: del seq[0]] *)
Definition remove_candidate (candidate : Cls) (sequences : list (list Cls))
  : list (list Cls) :=
  map (λ seq, match seq with
              | c :: seq' => if bool_decide (c = candidate) then seq' else seq
              | [] => seq
              end) sequences.

(** One turn of the [while True] loop. *)
Inductive Turn : Type :=
  | Return (result : list Cls)
  | Inconsistent
  | Again (sequences : list (list Cls)) (result : list Cls).

Definition turn (sequences : list (list Cls)) (result : list Cls) : Turn :=
  let sequences := purge sequences in
  match sequences with
  | [] => Return result
  | _ =>
      match find_candidate sequences sequences with
      | None => Inconsistent
      | Some candidate =>
          Again (remove_candidate candidate sequences) (result ++ [candidate])
      end
  end.

Fixpoint loop (fuel : nat) (sequences : list (list Cls)) (result : list Cls)
  : Res (list Cls) :=
  match fuel with
  | 0 => OutOfFuel
  | S fuel =>
      match turn sequences result with
      | Return result => Ok result
      | Inconsistent => Raise InconsistentHierarchy
      | Again sequences result => loop fuel sequences result
      end
  end.

(** The number of elements left in the sequences: every turn that goes
    round again removes at least one. *)
Definition total (sequences : list (list Cls)) : nat :=
  sum_list (length <$> sequences).

End C3.

Definition _c3_merge (sequences : list (list Cls)) : Res (list Cls) :=
  C3.loop (S (C3.total sequences)) sequences [].

(** ** Trie nodes *)

(** A node of the signature trie ([class Node]): [value] is [None] at the
    root, [seq] is [None] until a signature ends at the node. *)
#[warnings="-register-all"]
Inductive Node : Type :=
  mkNode { value : option Obj;
           children : list Node;
           seq : option (list Obj) }.

(** ** The class graph *)

(** What the module reads off the classes and the other objects it is
    given.  [issubclass] is the builtin, so it also answers for classes
    registered with an abstract base class and for [__subclasshook__]. *)
Record ClassEnv : Type := {
  (** [cls.__bases__] *)
  bases : Cls → list Cls;
  (** [cls.__mro__] *)
  mro : Cls → list Cls;
  issubclass : Cls → Cls → bool;
  (** [cls.__subclasses__()] *)
  subclasses : Cls → list Cls;
  (** [hasattr(cls, '__abstractmethods__')] *)
  has_abstractmethods : Cls → bool;
  (** [abc.get_cache_token()] *)
  get_cache_token : nat;
  (** [isinstance(value, Iterable)] for an element of a signature: it
      holds of a class whose metaclass defines [__iter__], as that of
      every [Enum] class does *)
  isinstance_Iterable : Obj → bool;
  (** [node in value] for such a [value]: what the [__contains__] of its
      type returns or raises, or what going through [iter(value)] with
      [==] comes to.  For an [Enum] class and a [Node] it is a [TypeError]
      up to Python 3.12. *)
  node_in : Node → Obj → Exn + bool;
}.

(** [l.remove(x)]: drops the first occurrence. *)
Fixpoint list_remove (x : Cls) (l : list Cls) : list Cls :=
  match l with
  | [] => []
  | y :: l' => if bool_decide (y = x) then l' else y :: list_remove x l'
  end.

(** ** [_c3_mro] *)

Section linearizer.
Context (env : ClassEnv).

(** The [for i, base in enumerate(reversed(cls.__bases__))] loop. *)
Definition boundary (cls : Cls) : nat :=
  match list_find (λ base, has_abstractmethods env base = true)
                  (reverse (bases env cls)) with
  | Some (i, _) => length (bases env cls) - i
  | None => 0
  end.

Definition explicit_bases (cls : Cls) : list Cls :=
  take (boundary cls) (bases env cls).

Definition other_bases (cls : Cls) : list Cls :=
  drop (boundary cls) (bases env cls).

Definition abstract_bases (cls : Cls) (abcs : list Cls) : list Cls :=
  filter (λ base, issubclass env cls base = true ∧
                  existsb (λ b, issubclass env b base) (bases env cls) = false)
         abcs.

(** [abcs] after [for base in abstract_bases: abcs.remove(base)] *)
Definition remaining_abcs (cls : Cls) (abcs : list Cls) : list Cls :=
  foldl (λ abcs base, list_remove base abcs) abcs (abstract_bases cls abcs).

Fixpoint _c3_mro (fuel : nat) (cls : Cls) (abcs : list Cls) : Res (list Cls) :=
  match fuel with
  | 0 => OutOfFuel
  | S fuel =>
      let explicit_bases := explicit_bases cls in
      let abstract_bases := abstract_bases cls abcs in
      let other_bases := other_bases cls in
      let abcs := remaining_abcs cls abcs in
      explicit_c3_mros ← mapM (λ base, _c3_mro fuel base abcs) explicit_bases;
      abstract_c3_mros ← mapM (λ base, _c3_mro fuel base abcs) abstract_bases;
      other_c3_mros ← mapM (λ base, _c3_mro fuel base abcs) other_bases;
      _c3_merge
        ([[cls]] ++
         explicit_c3_mros ++ abstract_c3_mros ++ other_c3_mros ++
         [explicit_bases] ++ [abstract_bases] ++ [other_bases])
  end.

(** ** [_compose_mro] *)

(** [found.sort(key=len, reverse=True)]: a stable sort, longest first;
    equal lengths keep their order. *)
Fixpoint insert_by_len (sub : list Cls) (sorted : list (list Cls))
  : list (list Cls) :=
  match sorted with
  | [] => [sub]
  | s :: sorted' =>
      if decide (length sub ≤ length s)
      then s :: insert_by_len sub sorted'
      else sub :: sorted
  end.

Definition sort_by_len_reverse (found : list (list Cls)) : list (list Cls) :=
  foldl (λ sorted sub, insert_by_len sub sorted) [] found.

Definition is_related (cls : Cls) (typ : Obj) : option Cls :=
  match typ with
  | OClass t =>
      if (bool_decide (t ∉ mro env cls) && issubclass env cls t)%bool
      then Some t else None
  | OAlias _ => None   (* [isinstance(typ, GenericAlias)] *)
  | OOther _ => None   (* no [__mro__] *)
  end.

Definition is_strict_base (types : list Cls) (typ : Cls) : bool :=
  existsb (λ other, bool_decide (typ ≠ other) &&
                    bool_decide (typ ∈ mro env other)) types.

(** The body of [for typ in types]: extends [mro]. *)
Definition compose_step (cls : Cls) (type_set : list Cls)
    (mro_acc : list Cls) (typ : Cls) : list Cls :=
  let found :=
    (λ sub, filter (λ s, s ∈ type_set) (mro env sub)) <$>
    filter (λ sub, (sub ∉ mro env cls) ∧ issubclass env cls sub = true)
           (subclasses env typ) in
  match found with
  | [] => mro_acc ++ [typ]
  | _ =>
      foldl (λ acc sub,
               foldl (λ acc subcls,
                        if bool_decide (subcls ∈ acc) then acc
                        else acc ++ [subcls]) acc sub)
            mro_acc (sort_by_len_reverse found)
  end.

Definition _compose_mro (fuel : nat) (cls : Cls) (types : list Obj)
  : Res (list Cls) :=
  let types := omap (is_related cls) types in
  let types := filter (λ n, is_strict_base types n = false) types in
  let type_set := types in
  let mro := foldl (compose_step cls type_set) [] types in
  _c3_mro fuel cls mro.

End linearizer.

(** ** [Node] and [TypeTree] *)

(** [Node(value)] *)
Definition Node_new (value : option Obj) : Node := mkNode value [] None.

(** [self.children.append(child)] *)
Definition add_child (self child : Node) : Node :=
  mkNode (value self) (children self ++ [child]) (seq self).

(** [self.seq = seq] *)
Definition set_seq (self : Node) (seq : list Obj) : Node :=
  mkNode (value self) (children self) (Some seq).

(** [Node.__eq__(self, other)] for an [other] that is not a [Node]: this
    is what [other == node] and [node == other] both come to for a class
    [other], whose own [__eq__] is identity. *)
Definition Node_eq (self : Node) (other : Obj) : bool :=
  if bool_decide (value self = Some (OClass IGNORE_TYPE)) then true
  else if bool_decide (other = OClass IGNORE_TYPE) then true
  else bool_decide (Some other = value self).

(** [Node.__contains__]: [value in self.children] *)
Definition Node_contains (self : Node) (value : Obj) : bool :=
  existsb (λ c, Node_eq c value) (children self).

(** [Node.get(self, value)] as [TypeTree.__getitem__] calls it, with a
    list [value] of classes: [isinstance(value, Iterable)] holds and
    [c in value] compares [c] with the elements of the list. *)
Definition Node_get_list (self : Node) (value : list Obj) : option Node :=
  let child :=
    filter (λ c, existsb (λ x, Node_eq c x) value = true) (children self) in
  head child.

(** [[c for c in self.children if c in value]] for a [value] that is not
    a list: the children kept, each with its place in [self.children]
    ([i] is the place of the first of [children]).  Every child is tried;
    the first exception that [c in value] raises ends the comprehension. *)
Fixpoint children_in (env : ClassEnv) (value : Obj) (i : nat)
    (children : list Node) : Res (list (nat * Node)) :=
  match children with
  | [] => Ok []
  | c :: children =>
      match node_in env c value with
      | inl e => Raise e
      | inr b =>
          child ← children_in env value (S i) children;
          Ok (if b then (i, c) :: child else child)
      end
  end.

(** [Node.get(self, value)] as [TypeTree.add_type] calls it, with an
    element [value] of a signature.  The node it returns is one of
    [self.children]; it is given with its place there, which stands for
    its identity. *)
Definition Node_get (env : ClassEnv) (self : Node) (value : Obj)
  : Res (option (nat * Node)) :=
  if isinstance_Iterable env value then
    child ← children_in env value 0 (children self);
    Ok (head child)
  else
    if Node_contains self value
    then Ok (list_find (λ c, Node_eq c value = true) (children self))
    else Ok None.

(** [TypeTree.add_type]: [parts] is what is left of [types] when the walk
    is at [current]; the result is [current] after the in-place updates
    below it.  When [current.get(part)] returns [None] the loop goes on
    with [current = None] and raises at its next step: in [part in current]
    when a part is left, in [current.set_seq] otherwise.  Nothing has been
    written when the walk raises: a node is added only where no child is
    equal to the part, and below a new node no part finds a child. *)
Fixpoint add_type_from (env : ClassEnv) (current : Node)
    (parts types : list Obj) : Res Node :=
  match parts with
  | [] => Ok (set_seq current types)
  | part :: parts =>
      if Node_contains current part then
        found ← Node_get env current part;
        match found with
        | Some (i, child) =>
            child ← add_type_from env child parts types;
            Ok (mkNode (value current)
                       (<[i := child]> (children current))
                       (seq current))
        | None =>
            Raise (match parts with
                   | [] => NoneHasNoAttribute "set_seq"
                   | _ :: _ => NoneNotIterable
                   end)
        end
      else
        new_node ← add_type_from env (Node_new (Some part)) parts types;
        Ok (add_child current new_node)
  end.

(** A [TypeTree] is its [root]. *)
Definition TypeTree : Type := Node.

(** [TypeTree([])], and [clear] *)
Definition TypeTree_new : TypeTree := Node_new None.

Definition add_type (env : ClassEnv) (self : TypeTree) (types : list Obj)
  : Res TypeTree :=
  add_type_from env self types types.

(** [for types in types: self.add_type(types)] *)
Fixpoint build_tree (env : ClassEnv) (self : TypeTree)
    (types : list (list Obj)) : Res TypeTree :=
  match types with
  | [] => Ok self
  | types0 :: types =>
      self ← add_type env self types0;
      build_tree env self types
  end.

(** What [TypeTree.__getitem__] returns and [registry.get] receives:
    [None], the class [object], or a tuple. *)
Inductive PyKey : Type :=
  | KNone
  | KObject
  | KTuple (t : list Obj).

Global Instance PyKey_eq_dec : EqDecision PyKey.
Proof. solve_decision. Defined.

Definition key_of_seq (seq : option (list Obj)) : PyKey :=
  match seq with
  | Some t => KTuple t
  | None => KNone
  end.

(** [TypeTree.__getitem__] *)
Fixpoint getitem_from (current : Node) (types : list (list Obj)) : PyKey :=
  match types with
  | [] => key_of_seq (seq current)
  | typ :: types =>
      match Node_get_list current typ with
      | None => KObject
      | Some current => getitem_from current types
      end
  end.

Definition getitem (self : TypeTree) (types : list (list Obj)) : PyKey :=
  getitem_from self types.

(** ** Functions and their signatures *)

(** [inspect.Parameter.kind] *)
Inductive ParamKind : Type :=
  | POSITIONAL_ONLY
  | POSITIONAL_OR_KEYWORD
  | VAR_POSITIONAL
  | KEYWORD_ONLY
  | VAR_KEYWORD.

(** A parameter of a function as [inspect.signature] reports it.
    [annotation] is [None] when the parameter has no annotation, and is
    the evaluated annotation otherwise. *)
Record Param : Type := {
  pname : string;
  kind : ParamKind;
  annotation : option Obj;
}.

(** A function object: its [__name__] and its parameters in declaration
    order. *)
Record Func : Type := {
  func_name : string;
  parameters : list Param;
}.

(** [param.annotation]: [inspect._empty] for a missing annotation. *)
Definition param_annotation (param : Param) : Obj :=
  default (OClass IGNORE_TYPE) (annotation param).

(** [typing.get_type_hints(func)] restricted to the parameters: the
    annotated names with their annotations. *)
Definition get_type_hints (func : Func) : gmap string Obj :=
  list_to_map (omap (λ param, (λ a, (pname param, a)) <$> annotation param)
                    (parameters func)).

(** [_get_args_type] *)
Definition _get_args_type (func : Func) : list Obj :=
  let type_hints := get_type_hints func in
  (λ param, default (param_annotation param) (type_hints !! pname param))
    <$> parameters func.

(** ** Dictionaries that keep insertion order *)

Section dict.
Context {K V : Type} `{EqDecision K}.

(** [d.get(k)], with [None] for a missing key *)
Fixpoint dict_get (d : list (K * V)) (k : K) : option V :=
  match d with
  | [] => None
  | (k', v) :: d => if decide (k' = k) then Some v else dict_get d k
  end.

(** [d[k] = v] *)
Fixpoint dict_set (d : list (K * V)) (k : K) (v : V) : list (K * V) :=
  match d with
  | [] => [(k, v)]
  | (k', v') :: d =>
      if decide (k' = k) then (k', v) :: d else (k', v') :: dict_set d k v
  end.

(** [d.keys()] *)
Definition dict_keys (d : list (K * V)) : list K := fst <$> d.

End dict.

(** ** The state of one generic function *)

(** The variables that the closures of [multi_dispatch] share.
    [dispatch_cache] is a [WeakKeyDictionary]; its keys are the generator
    objects that [wrapper] passes to [dispatch], named by the number under
    which they were created, which [next_id] counts. A cached
    implementation may be [None]. *)
Record State : Type := {
  funcname : string;
  registry : list (PyKey * Func);
  dispatch_cache : gmap nat (option Func);
  cache_token : option nat;
  types_cache : TypeTree;
  next_id : nat;
}.

Definition set_dispatch_cache (s : State) (c : gmap nat (option Func)) : State :=
  {| funcname := funcname s; registry := registry s; dispatch_cache := c;
     cache_token := cache_token s; types_cache := types_cache s;
     next_id := next_id s |}.

Definition set_registry (s : State) (r : list (PyKey * Func)) : State :=
  {| funcname := funcname s; registry := r;
     dispatch_cache := dispatch_cache s;
     cache_token := cache_token s; types_cache := types_cache s;
     next_id := next_id s |}.

Definition set_cache_token (s : State) (t : option nat) : State :=
  {| funcname := funcname s; registry := registry s;
     dispatch_cache := dispatch_cache s;
     cache_token := t; types_cache := types_cache s;
     next_id := next_id s |}.

(** The argument of [dispatch]: either the generator object
    [(arg.__class__ for arg in args)] that [wrapper] builds, with its
    identity and the classes it yields, or a tuple of classes handed to
    [generic_func.dispatch] directly. *)
Inductive DispatchArg : Type :=
  | ArgGenerator (id : nat) (classes : list Cls)
  | ArgTuple (classes : list Cls).

(** [for c in cls] *)
Definition iterate (cls : DispatchArg) : list Cls :=
  match cls with
  | ArgGenerator _ classes => classes
  | ArgTuple classes => classes
  end.

(** ** [_find_impl] *)

(** [set(t for ts in typs for t in ts)]. The order in which Python goes
    through a set is not specified; the model fixes one, that of
    [remove_dups]. *)
Definition registered_types (registry : list (PyKey * Func)) : list Obj :=
  let typs := filter (λ typ, typ ≠ KObject) (dict_keys registry) in
  remove_dups
    (mjoin ((λ ts, match ts with KTuple ts => ts | _ => [] end) <$> typs)).

Definition _find_impl (fuel : nat) (env : ClassEnv) (cls : DispatchArg)
    (registry : list (PyKey * Func)) (types_cache : TypeTree)
  : Res (option Func) :=
  let typs := registered_types registry in
  mro ← mapM (M := Res) (λ c, _compose_mro env fuel c typs) (iterate cls);
  let match_ := getitem types_cache (map (map OClass) mro) in
  Ok (dict_get registry match_).

(** ** [multi_dispatch] and its closures *)

(** [dispatch_cache[cls]]: [Ok None] stands for [KeyError]. A tuple has no
    weak reference. *)
Definition cache_getitem (cache : gmap nat (option Func)) (cls : DispatchArg)
  : Res (option (option Func)) :=
  match cls with
  | ArgGenerator id _ => Ok (cache !! id)
  | ArgTuple _ => Raise NotWeakReferenceable
  end.

(** [registry[cls]]: [None] stands for [KeyError]. A generator object is
    equal to itself only, so it is never a key of [registry]. *)
Definition registry_getitem (registry : list (PyKey * Func)) (cls : DispatchArg)
  : option Func :=
  match cls with
  | ArgGenerator _ _ => None
  | ArgTuple classes => dict_get registry (KTuple (OClass <$> classes))
  end.

(** [dispatch_cache[cls] = impl] *)
Definition cache_setitem (s : State) (cls : DispatchArg) (impl : option Func)
  : State :=
  match cls with
  | ArgGenerator id _ => set_dispatch_cache s (<[id := impl]> (dispatch_cache s))
  | ArgTuple _ => s
  end.

(** The test of [cache_token] that opens [dispatch]. *)
Definition check_token (env : ClassEnv) (s : State) : State :=
  match cache_token s with
  | Some token =>
      let current_token := get_cache_token env in
      if decide (token ≠ current_token)
      then set_cache_token (set_dispatch_cache s ∅) (Some current_token)
      else s
  | None => s
  end.

Definition dispatch (fuel : nat) (env : ClassEnv) (s : State) (cls : DispatchArg)
  : State * Res (option Func) :=
  let s := check_token env s in
  match cache_getitem (dispatch_cache s) cls with
  | Ok (Some impl) => (s, Ok impl)
  | Ok None =>
      let impl :=
        match registry_getitem (registry s) cls with
        | Some impl => Ok (Some impl)
        | None => _find_impl fuel env cls (registry s) (types_cache s)
        end in
      match impl with
      | Ok impl => (cache_setitem s cls impl, Ok impl)
      | Raise e => (s, Raise e)
      | OutOfFuel => (s, OutOfFuel)
      end
  | Raise e => (s, Raise e)
  | OutOfFuel => (s, OutOfFuel)
  end.

(** [isinstance(cls, type)]. A parameterized generic passes for a class
    in the Python versions for which the test on [GenericAlias] below was
    written; with or without it [_is_valid_dispatch_type] rejects one. *)
Definition isinstance_type (cls : Obj) : bool :=
  match cls with
  | OClass _ | OAlias _ => true
  | OOther _ => false
  end.

Definition isinstance_GenericAlias (cls : Obj) : bool :=
  match cls with
  | OAlias _ => true
  | _ => false
  end.

Definition _is_valid_dispatch_type (cls : Obj) : bool :=
  isinstance_type cls && negb (isinstance_GenericAlias cls).

(** [hasattr(c, '__abstractmethods__')] for an element of a signature *)
Definition hasattr_abstractmethods (env : ClassEnv) (c : Obj) : bool :=
  match c with
  | OClass c => has_abstractmethods env c
  | _ => false
  end.

(** [register(func, force)] for a [func] that is not [None].  The entry
    of the registry is written before the signature goes into the trie:
    when [add_type] raises, the entry stays and the lines after it (the
    token, [dispatch_cache.clear()]) are not reached. *)
Definition register (env : ClassEnv) (s : State) (func : Func) (force : bool)
  : State * Res Func :=
  let cls := _get_args_type func in
  if negb force && bool_decide (KTuple cls ∈ dict_keys (registry s))
  then (s, Raise (DuplicateRegistration (func_name func) cls))
  else if existsb (λ c, negb (_is_valid_dispatch_type c)) cls
  then (s, Raise (InvalidSignatureElement cls))
  else
    let s := set_registry s (dict_set (registry s) (KTuple cls) func) in
    match add_type env (types_cache s) cls with
    | Ok types_cache =>
        let cache_token :=
          match cache_token s with
          | None =>
              if existsb (hasattr_abstractmethods env) cls
              then Some (get_cache_token env) else None
          | Some token => Some token
          end in
        ({| funcname := funcname s;
            registry := registry s;
            dispatch_cache := ∅;
            cache_token := cache_token;
            types_cache := types_cache;
            next_id := next_id s |},
         Ok func)
    | Raise e => (s, Raise e)
    | OutOfFuel => (s, OutOfFuel)
    end.

(** [dispatch(cls)(...)]: calling what [dispatch] returned. *)
Definition call (impl : option Func) : Res Func :=
  match impl with
  | Some impl => Ok impl
  | None => Raise NoneNotCallable
  end.

(** [wrapper]: the positional arguments [args] are given by their classes
    [arg.__class__]; the result is the implementation that is called with
    them. *)
Definition wrapper (fuel : nat) (env : ClassEnv) (s : State) (args : list Cls)
  : State * Res Func :=
  match args with
  | [] => (s, Raise (NoPositionalArguments (funcname s)))
  | _ =>
      let cls := ArgGenerator (next_id s) args in
      let s := {| funcname := funcname s; registry := registry s;
                  dispatch_cache := dispatch_cache s;
                  cache_token := cache_token s;
                  types_cache := types_cache s;
                  next_id := S (next_id s) |} in
      let '(s, impl) := dispatch fuel env s cls in
      (s, impl ← impl; call impl)
  end.

(** [wrapper._clear_cache] *)
Definition _clear_cache (s : State) : State := set_dispatch_cache s ∅.

(** [multi_dispatch(func)]: the state in which the closures start. *)
Definition multi_dispatch (func : Func) : State :=
  {| funcname := func_name func;
     registry := [(KObject, func)];
     dispatch_cache := ∅;
     cache_token := None;
     types_cache := TypeTree_new;
     next_id := 0 |}.

(** ** Notions used by the statements *)

Module C3Spec.
Import C3.

(** The states the [while True] loop goes through: [reaches st st'] when
    the loop started on [st] comes to the top of the loop on [st']. *)
Inductive reaches
  : list (list Cls) * list Cls → list (list Cls) * list Cls → Prop :=
  | reaches_here st : reaches st st
  | reaches_turn sequences result sequences' result' st :
      turn sequences result = Again sequences' result' →
      reaches (sequences', result') st →
      reaches (sequences, result) st.

(** Lists remain that are not empty, and the head of each of them occurs
    in the tail of another one. *)
Definition no_valid_head (sequences : list (list Cls)) : bool :=
  let live := imap (λ i s, (i, s)) (purge sequences) in
  bool_decide (live ≠ []) &&
  forallb (λ '(i, s1),
             match s1 with
             | [] => true
             | c :: _ =>
                 existsb (λ '(j, s2),
                            bool_decide (j ≠ i) && bool_decide (c ∈ tail s2))
                         live
             end) live.

End C3Spec.

(** What a client can do with the generic function. *)
Inductive Op : Type :=
  | OpRegister (func : Func) (force : bool)
  | OpCall (args : list Cls)
  | OpDispatch (classes : list Cls)
  | OpClearCache.

Definition step (fuel : nat) (env : ClassEnv) (s : State) (op : Op) : State :=
  match op with
  | OpRegister func force => fst (register env s func force)
  | OpCall args => fst (wrapper fuel env s args)
  | OpDispatch classes => fst (dispatch fuel env s (ArgTuple classes))
  | OpClearCache => _clear_cache s
  end.

(** The states of a generic function: the one [multi_dispatch] makes and
    those that follow from it; the class graph may change between two
    operations. *)
Inductive reachable : State → Prop :=
  | reachable_init func : reachable (multi_dispatch func)
  | reachable_step fuel env s op :
      reachable s → reachable (step fuel env s op).

(** No element of the signature is iterable under [env]: [Node.get]
    takes its second branch for each of them. *)
Definition not_iterable (env : ClassEnv) (types : list Obj) : Prop :=
  Forall (λ part, isinstance_Iterable env part = false) types.

(** An element of a signature for which [Node.get] never returns a node
    that it chose with [node in value]: the element is not iterable, or
    [node in value] raises for every node, as it does for an [Enum] class
    up to Python 3.12. *)
Definition quiet_part (env : ClassEnv) (part : Obj) : Prop :=
  isinstance_Iterable env part = false ∨
  ∀ n, ∃ e, node_in env n part = inl e.

Definition quiet (env : ClassEnv) (types : list Obj) : Prop :=
  Forall (quiet_part env) types.

(** Any signature, under any class graph. *)
Definition any_signature (env : ClassEnv) (types : list Obj) : Prop := True.

(** The tries that [TypeTree] can hold after insertions that returned,
    each of a signature and under a class graph of which [P] holds. *)
Inductive built (P : ClassEnv → list Obj → Prop) : TypeTree → Prop :=
  | built_new : built P TypeTree_new
  | built_add env t types t' :
      built P t → P env types → add_type env t types = Ok t' → built P t'.

(** The node at the end of a path of child indices. *)
Fixpoint node_at (n : Node) (path : list nat) : option Node :=
  match path with
  | [] => Some n
  | i :: path =>
      match children n !! i with
      | Some child => node_at child path
      | None => None
      end
  end.

(** The path [add_type] walks as long as it finds a child for each part:
    at each node the first child equal to the part. [None] when some part
    finds no child. *)
Fixpoint route (current : Node) (parts : list Obj) : option (list nat) :=
  match parts with
  | [] => Some []
  | part :: parts =>
      match list_find (λ c, Node_eq c part = true) (children current) with
      | Some (i, child) => cons i <$> route child parts
      | None => None
      end
  end.

(** [path] leads from [n] to a leaf and each part is equal, in the sense
    of [Node.__eq__], to the node the path passes at its position. *)
Fixpoint matches_along (n : Node) (parts : list Obj) (path : list nat) : bool :=
  match parts, path with
  | [], [] => bool_decide (children n = [])
  | part :: parts, i :: path =>
      match children n !! i with
      | Some child => Node_eq child part && matches_along child parts path
      | None => false
      end
  | _, _ => false
  end.

Fixpoint node_count (n : Node) : nat :=
  match n with
  | mkNode _ children _ => S (sum_list (map node_count children))
  end.

(** Read from the words of the specification: the annotations of the
    positional parameters, the wildcard where there is none. *)
Definition is_positional (param : Param) : bool :=
  match kind param with
  | POSITIONAL_ONLY | POSITIONAL_OR_KEYWORD | VAR_POSITIONAL => true
  | KEYWORD_ONLY | VAR_KEYWORD => false
  end.

Definition positional_annotations (func : Func) : list Obj :=
  param_annotation <$>
    filter (λ param, is_positional param = true) (parameters func).

(** What holds in every state of a generic function. *)
Record state_inv (s : State) : Prop := {
  (** the generators in the cache were created before *)
  inv_cache_ids : ∀ id impl,
    dispatch_cache s !! id = Some impl → id < next_id s;
  (** the registered signatures passed [_is_valid_dispatch_type] *)
  inv_registry_valid : ∀ t,
    KTuple t ∈ dict_keys (registry s) →
    Forall (λ c, _is_valid_dispatch_type c = true) t;
  (** the function given to [multi_dispatch] is still under [object] *)
  inv_default : ∃ func,
    dict_get (registry s) KObject = Some func ∧ funcname s = func_name func;
  (** the signatures in the trie are keys of the registry *)
  inv_trie_keys : ∀ (path : list nat) (n : Node) (t : list Obj),
    node_at (types_cache s) path = Some n → seq n = Some t →
    KTuple t ∈ dict_keys (registry s);
}.

(** The outcome of a call, read off [registry] and [types_cache] alone. *)
Definition resolve (fuel : nat) (env : ClassEnv) (s : State) (args : list Cls)
  : Res Func :=
  match args with
  | [] => Raise (NoPositionalArguments (funcname s))
  | _ =>
      _find_impl fuel env (ArgGenerator 0 args) (registry s) (types_cache s)
        ≫= call
  end.

(** A signature kept below [n], [d] parts above it, sits where its
    remaining parts lead. *)
Definition routed (d : nat) (n : Node) : Prop :=
  ∀ (path : list nat) (n' : Node) (s : list Obj),
    node_at n path = Some n' → seq n' = Some s →
    route n (drop d s) = Some path.

(** ** Example programs *)

Module Zoo.

(** [class Animal: pass], [class Dog(Animal): pass], [class Cat: pass],
    [class Bird: pass], [class Fish: pass] *)
Definition zoo_bases (c : Cls) : list Cls :=
  if decide (c = "object") then []
  else if decide (c = "Dog") then ["Animal"]
  else ["object"].

Definition zoo_mro (c : Cls) : list Cls :=
  if decide (c = "object") then ["object"]
  else if decide (c = "Dog") then ["Dog"; "Animal"; "object"]
  else [c; "object"].

Definition zoo_subclasses (c : Cls) : list Cls :=
  if decide (c = "object") then ["Animal"; "Cat"; "Bird"; "Fish"]
  else if decide (c = "Animal") then ["Dog"]
  else [].

Definition zoo : ClassEnv :=
  {| bases := zoo_bases;
     mro := zoo_mro;
     issubclass := λ c d, bool_decide (d ∈ zoo_mro c);
     subclasses := zoo_subclasses;
     has_abstractmethods := λ _, false;
     get_cache_token := 0;
     isinstance_Iterable := λ _, false;
     node_in := λ _ _, inr false |}.

Definition Dog : Obj := OClass "Dog".
Definition Cat : Obj := OClass "Cat".
Definition Bird : Obj := OClass "Bird".
Definition Fish : Obj := OClass "Fish".
Definition Animal : Obj := OClass "Animal".
Definition wildcard : Obj := OClass IGNORE_TYPE.

Definition param (name : string) (annotation : option Obj) : Param :=
  {| pname := name; kind := POSITIONAL_OR_KEYWORD; annotation := annotation |}.

(** [def D(a, b)], [def A(a: Dog, b)], [def B(a: Dog, b: Cat)] *)
Definition D : Func :=
  {| func_name := "D"; parameters := [param "a" None; param "b" None] |}.
Definition A : Func :=
  {| func_name := "A"; parameters := [param "a" (Some Dog); param "b" None] |}.
(** [def A2(a: Dog, b)]: a second function with the signature of [A] *)
Definition A2 : Func :=
  {| func_name := "A2"; parameters := [param "a" (Some Dog); param "b" None] |}.
Definition B : Func :=
  {| func_name := "B";
     parameters := [param "a" (Some Dog); param "b" (Some Cat)] |}.

(** [def on_animal(a: Animal)], [def on_dog(a: Dog)] *)
Definition on_animal : Func :=
  {| func_name := "on_animal"; parameters := [param "a" (Some Animal)] |}.
Definition on_dog : Func :=
  {| func_name := "on_dog"; parameters := [param "a" (Some Dog)] |}.

(** [def keyed(a: Dog, *, key: Cat)] *)
Definition keyed : Func :=
  {| func_name := "keyed";
     parameters := [param "a" (Some Dog);
                    {| pname := "key"; kind := KEYWORD_ONLY;
                       annotation := Some Cat |}] |}.

(** [def aliased(a: list[Dog])] *)
Definition aliased : Func :=
  {| func_name := "aliased";
     parameters := [param "a" (Some (OAlias "list[Dog]"))] |}.

(** [@multi_dispatch def D], then [register] of each of [funcs] in order *)
Definition registered (funcs : list Func) : State :=
  foldl (λ s func, fst (register zoo s func false)) (multi_dispatch D) funcs.

End Zoo.

Module Ponds.

(** Two abstract base classes [R] and [S] ([metaclass=ABCMeta]), the
    classes [K1], [B1(K1)], [K2], [B2(K2)], [C(B1, B2)], and the
    registrations [S.register(K1)], [R.register(B1)], [R.register(K2)],
    [S.register(B2)]. *)
Definition ponds_bases (c : Cls) : list Cls :=
  if decide (c = "object") then []
  else if decide (c = "C") then ["B1"; "B2"]
  else if decide (c = "B1") then ["K1"]
  else if decide (c = "B2") then ["K2"]
  else ["object"].

Definition ponds_mro (c : Cls) : list Cls :=
  if decide (c = "object") then ["object"]
  else if decide (c = "C") then ["C"; "B1"; "K1"; "B2"; "K2"; "object"]
  else if decide (c = "B1") then ["B1"; "K1"; "object"]
  else if decide (c = "B2") then ["B2"; "K2"; "object"]
  else [c; "object"].

Definition ponds_issubclass (c d : Cls) : bool :=
  bool_decide (d ∈ ponds_mro c)
  || (bool_decide (d = "S") && bool_decide (c ∈ ["K1"; "B1"; "B2"; "C"]))
  || (bool_decide (d = "R") && bool_decide (c ∈ ["B1"; "K2"; "B2"; "C"])).

Definition ponds_subclasses (c : Cls) : list Cls :=
  if decide (c = "object") then ["R"; "S"; "K1"; "K2"]
  else if decide (c = "K1") then ["B1"]
  else if decide (c = "K2") then ["B2"]
  else if decide (c = "B1") then ["C"]
  else if decide (c = "B2") then ["C"]
  else [].

Definition ponds : ClassEnv :=
  {| bases := ponds_bases;
     mro := ponds_mro;
     issubclass := ponds_issubclass;
     subclasses := ponds_subclasses;
     has_abstractmethods := λ c, bool_decide (c ∈ ["R"; "S"]);
     get_cache_token := 4;
     isinstance_Iterable := λ _, false;
     node_in := λ _ _, inr false |}.

(** [def default(x)], [def on_R(x: R)], [def on_S(x: S)] *)
Definition default_ : Func :=
  {| func_name := "default"; parameters := [Zoo.param "x" None] |}.
Definition on_R : Func :=
  {| func_name := "on_R"; parameters := [Zoo.param "x" (Some (OClass "R"))] |}.
Definition on_S : Func :=
  {| func_name := "on_S"; parameters := [Zoo.param "x" (Some (OClass "S"))] |}.

Definition registered : State :=
  foldl (λ s func, fst (register ponds s func false))
        (multi_dispatch default_) [on_R; on_S].

End Ponds.

Module Palette.

(** [class Color(Enum): RED = 1] beside the classes of [Zoo]: the
    metaclass of [Color] defines [__iter__] and [__contains__], and
    [node in Color] raises for a [node] that is no member (Python 3.11). *)
Definition Color : Obj := OClass "Color".

Definition palette_bases (c : Cls) : list Cls :=
  if decide (c = "Color") then ["Enum"] else Zoo.zoo_bases c.

Definition palette_mro (c : Cls) : list Cls :=
  if decide (c = "Color") then ["Color"; "Enum"; "object"] else Zoo.zoo_mro c.

Definition palette_subclasses (c : Cls) : list Cls :=
  if decide (c = "object") then ["Animal"; "Cat"; "Bird"; "Fish"; "Enum"]
  else if decide (c = "Enum") then ["Color"]
  else Zoo.zoo_subclasses c.

(** [TypeError("unsupported operand type(s) for 'in': 'Node' and
    'EnumType'")] *)
Definition enum_error : Exn :=
  Raised "TypeError: unsupported operand type(s) for 'in'".

Definition palette : ClassEnv :=
  {| bases := palette_bases;
     mro := palette_mro;
     issubclass := λ c d, bool_decide (d ∈ palette_mro c);
     subclasses := palette_subclasses;
     has_abstractmethods := λ _, false;
     get_cache_token := 0;
     isinstance_Iterable := λ value, bool_decide (value = Color);
     node_in := λ _ _, inl enum_error |}.

(** [def show(c)], [def paint(c: Color)], [def repaint(c: Color)] *)
Definition show : Func :=
  {| func_name := "show"; parameters := [Zoo.param "c" None] |}.
Definition paint : Func :=
  {| func_name := "paint"; parameters := [Zoo.param "c" (Some Color)] |}.
Definition repaint : Func :=
  {| func_name := "repaint"; parameters := [Zoo.param "c" (Some Color)] |}.

(** [@multi_dispatch def show], [show.register(paint)], then a call
    [show(Color.RED)], which leaves an entry in the cache. *)
Definition painted : State :=
  (wrapper 10 palette
     (register palette (multi_dispatch show) paint false).1 ["Color"]).1.

End Palette.

Module Plugins.

(** [class Meta(type)] whose [__iter__] goes through [cls.members];
    [class Plugin(metaclass=Meta)], [class PA(Plugin)] and
    [Plugin.members = [PA]].  Both classes are iterable, and [node in cls]
    compares the node with [PA]. *)
Definition Plugin : Obj := OClass "Plugin".
Definition PA : Obj := OClass "PA".

Definition plugins_bases (c : Cls) : list Cls :=
  if decide (c = "object") then []
  else if decide (c = "PA") then ["Plugin"]
  else ["object"].

Definition plugins_mro (c : Cls) : list Cls :=
  if decide (c = "object") then ["object"]
  else if decide (c = "PA") then ["PA"; "Plugin"; "object"]
  else [c; "object"].

Definition plugins_subclasses (c : Cls) : list Cls :=
  if decide (c = "object") then ["Plugin"]
  else if decide (c = "Plugin") then ["PA"]
  else [].

Definition plugins : ClassEnv :=
  {| bases := plugins_bases;
     mro := plugins_mro;
     issubclass := λ c d, bool_decide (d ∈ plugins_mro c);
     subclasses := plugins_subclasses;
     has_abstractmethods := λ _, false;
     get_cache_token := 0;
     isinstance_Iterable := λ value, bool_decide (value ∈ [Plugin; PA]);
     node_in := λ node _, inr (Node_eq node PA) |}.

(** [def run(x)], [def on_pa(x: PA)], [def on_plugin(x: Plugin)],
    [def on_plugin2(x: Plugin)] *)
Definition run_ : Func :=
  {| func_name := "run"; parameters := [Zoo.param "x" None] |}.
Definition on_pa : Func :=
  {| func_name := "on_pa"; parameters := [Zoo.param "x" (Some PA)] |}.
Definition on_plugin : Func :=
  {| func_name := "on_plugin"; parameters := [Zoo.param "x" (Some Plugin)] |}.
Definition on_plugin2 : Func :=
  {| func_name := "on_plugin2"; parameters := [Zoo.param "x" (Some Plugin)] |}.

Definition registered : State :=
  foldl (λ s func, fst (register plugins s func false))
        (multi_dispatch run_) [on_pa; on_plugin].

End Plugins.

(** ** Notions used by the further properties *)

Module C3More.

(** What is left of a sequence after the turn that chose [c]. *)
Definition after (c : Cls) (s : list Cls) : list Cls :=
  match s with
  | x :: s' => if bool_decide (x = c) then s' else s
  | [] => s
  end.

End C3More.

(** [ancestor env c a]: [a] is [c] or is reached from [c] through
    [__bases__]. *)
Inductive ancestor (env : ClassEnv) : Cls → Cls → Prop :=
  | ancestor_self c : ancestor env c c
  | ancestor_base c b a :
      b ∈ bases env c → ancestor env b a → ancestor env c a.

(** The list that [_compose_mro] hands to [_c3_mro] as [abcs]. *)
Definition composed_abcs (env : ClassEnv) (cls : Cls) (types : list Obj)
  : list Cls :=
  let types := omap (is_related env cls) types in
  let types := filter (λ n, is_strict_base env types n = false) types in
  foldl (compose_step env cls types) [] types.

(** A rank for the classes of [Zoo.zoo]: [object] below [Animal] and the
    classes without declared base, [Dog] above [Animal]. *)
Definition zoo_rank (c : Cls) : nat :=
  if decide (c = "object") then 0
  else if decide (c = "Dog") then 2
  else 1.

(** The children of a node are well sorted when they carry different
    values and a child with the wildcard marker has no sibling. *)
Definition siblings_ok (children : list Node) : Prop :=
  NoDup (value <$> children) ∧
  (Some (OClass IGNORE_TYPE) ∈ value <$> children → length children = 1).

(** Below [n] the children of every node are well sorted. *)
Definition sorted_below (n : Node) : Prop :=
  ∀ (p : list nat) (n' : Node),
    node_at n p = Some n' → siblings_ok (children n').

(** A history of a generic function: each operation with the class graph
    and the recursion bound under which it runs. *)
Definition run (s : State) (ops : list (nat * ClassEnv * Op)) : State :=
  foldl (λ s '(fuel, env, op), step fuel env s op) s ops.

(** The class graph of [Ponds.ponds] after one more registration with an
    abstract base class: [abc.get_cache_token()] has moved on. *)
Definition ponds_later : ClassEnv :=
  {| bases := bases Ponds.ponds;
     mro := mro Ponds.ponds;
     issubclass := issubclass Ponds.ponds;
     subclasses := subclasses Ponds.ponds;
     has_abstractmethods := has_abstractmethods Ponds.ponds;
     get_cache_token := 5;
     isinstance_Iterable := isinstance_Iterable Ponds.ponds;
     node_in := node_in Ponds.ponds |}.

(** The class graph records the order that Python itself computed: the
    C3 merge of the linearizations of the bases and of the list of bases. *)
Definition native_mro (env : ClassEnv) : Prop :=
  ∀ c, _c3_merge ([[c]] ++ (mro env <$> bases env c) ++ [bases env c])
       = Ok (mro env c).

(** * Facts about the model *)

(** ** The merge loop *)

Section c3_merge_facts.
Import C3 C3Spec.

Lemma total_cons s sequences : total (s :: sequences) = length s + total sequences.
Proof. done. Qed.

Lemma remove_candidate_cons c s sequences :
  remove_candidate c (s :: sequences) =
  match s with
  | x :: s' => if bool_decide (x = c) then s' else s
  | [] => s
  end :: remove_candidate c sequences.
Proof. done. Qed.

Local Arguments total : simpl never.
Local Arguments remove_candidate : simpl never.

Lemma total_purge sequences : total (purge sequences) = total sequences.
Proof.
  induction sequences as [|s l IH]; [done|].
  unfold purge in *. rewrite filter_cons.
  destruct (decide (s ≠ [])) as [|Hs].
  - by rewrite !total_cons, IH.
  - destruct s; [|by destruct Hs]. by rewrite total_cons, IH.
Qed.

Lemma total_remove_candidate_le c sequences :
  total (remove_candidate c sequences) ≤ total sequences.
Proof.
  induction sequences as [|s l IH]; [done|].
  rewrite remove_candidate_cons, !total_cons.
  destruct s as [|x s]; [simpl; lia|].
  case_bool_decide; simpl; lia.
Qed.

Lemma total_remove_candidate_lt c sequences s :
  s ∈ sequences → head s = Some c →
  total (remove_candidate c sequences) < total sequences.
Proof.
  intros Hin Hhead. induction Hin as [s l|s s' l Hin IH].
  - destruct s as [|x s]; simplify_eq/=.
    pose proof (total_remove_candidate_le c l) as Hle.
    rewrite remove_candidate_cons, !total_cons.
    rewrite bool_decide_eq_true_2 by done. simpl. lia.
  - specialize (IH Hhead).
    rewrite remove_candidate_cons, !total_cons.
    destruct s' as [|x s']; [simpl; lia|].
    case_bool_decide; simpl; lia.
Qed.

Lemma find_candidate_head sequences rest c :
  find_candidate sequences rest = Some c →
  ∃ s, s ∈ rest ∧ head s = Some c.
Proof.
  induction rest as [|s rest IH]; [done|]. simpl.
  destruct s as [|x s].
  - intros (s' & ? & ?)%IH. exists s'. split; [by right|done].
  - destruct (rejected x sequences).
    + intros (s' & ? & ?)%IH. exists s'. split; [by right|done].
    + intros [= ->]. exists (c :: s). split; [by left|done].
Qed.

Lemma turn_again_total sequences result sequences' result' :
  turn sequences result = Again sequences' result' →
  total sequences' < total sequences.
Proof.
  unfold turn. rewrite <-(total_purge sequences).
  destruct (purge sequences) as [|s l] eqn:Hp; [done|].
  destruct (find_candidate (s :: l) (s :: l)) as [c|] eqn:Hc; [|done].
  intros [= <- <-].
  apply find_candidate_head in Hc as (s' & Hin & Hhead).
  by eapply total_remove_candidate_lt.
Qed.

Lemma loop_enough fuel fuel' sequences result :
  total sequences < fuel → total sequences < fuel' →
  loop fuel sequences result = loop fuel' sequences result.
Proof.
  revert fuel' sequences result.
  induction fuel as [|fuel IH]; intros [|fuel'] sequences result ??; try lia.
  simpl. destruct (turn sequences result) as [| |sequences' result'] eqn:Ht;
    [done..|].
  apply turn_again_total in Ht. apply IH; lia.
Qed.

Lemma loop_not_out_of_fuel fuel sequences result :
  total sequences < fuel → loop fuel sequences result ≠ OutOfFuel.
Proof.
  revert sequences result.
  induction fuel as [|fuel IH]; intros sequences result ?; [lia|].
  simpl. destruct (turn sequences result) as [| |sequences' result'] eqn:Ht;
    [done..|].
  apply turn_again_total in Ht. apply IH; lia.
Qed.

Lemma reaches_loop st st' :
  reaches st st' →
  ∀ fuel fuel', total st.1 < fuel → total st'.1 < fuel' →
    loop fuel st.1 st.2 = loop fuel' st'.1 st'.2.
Proof.
  induction 1 as [st|sequences result sequences' result' st Ht _ IH];
    intros fuel fuel' Hf Hf'.
  - by apply loop_enough.
  - destruct fuel as [|fuel]; [simpl in *; lia|].
    simpl in *. rewrite Ht. apply turn_again_total in Ht.
    apply IH; simpl; lia.
Qed.

Lemma rejected_true c sequences s2 :
  s2 ∈ sequences → c ∈ tail s2 → rejected c sequences = true.
Proof.
  intros Hin Hc. unfold rejected. apply existsb_exists.
  exists s2. split; [by apply list_elem_of_In|by apply bool_decide_eq_true_2].
Qed.

Lemma find_candidate_none sequences rest :
  (∀ s c, s ∈ rest → head s = Some c → rejected c sequences = true) →
  find_candidate sequences rest = None.
Proof.
  induction rest as [|s rest IH]; intros Hall; [done|]. simpl.
  destruct s as [|x s].
  - apply IH. intros s' c ? ?. eapply Hall; [by right|done].
  - rewrite (Hall (x :: s) x); [|by left|done].
    apply IH. intros s' c ? ?. eapply Hall; [by right|done].
Qed.

Lemma no_valid_head_turn sequences result :
  no_valid_head sequences = true → turn sequences result = Inconsistent.
Proof.
  unfold no_valid_head, turn.
  intros [Hne Hall]%andb_true_iff.
  apply bool_decide_eq_true_1 in Hne.
  destruct (purge sequences) as [|s0 l0] eqn:Hp; [done|].
  rewrite find_candidate_none; [done|].
  intros s c Hin Hhead.
  apply list_elem_of_lookup in Hin as [i Hi].
  rewrite forallb_forall in Hall.
  destruct s as [|x s]; [done|]. injection Hhead as ->.
  assert (In (i, c :: s) (imap (λ i s, (i, s)) (s0 :: l0))) as Hi'.
  { apply list_elem_of_In, list_elem_of_lookup. exists i.
    by rewrite list_lookup_imap, Hi. }
  apply Hall in Hi'.
  apply existsb_exists in Hi' as [[j s2] [Hj Hs2]].
  apply list_elem_of_In, list_elem_of_lookup in Hj as [k Hk].
  apply andb_true_iff in Hs2 as [_ Hs2%bool_decide_eq_true_1].
  rewrite list_lookup_imap in Hk.
  destruct ((s0 :: l0) !! k) as [s2'|] eqn:Hk'; [|done].
  injection Hk as <- <-.
  eapply rejected_true; [|done]. by eapply list_elem_of_lookup_2.
Qed.

Lemma c3_merge_stuck sequences0 sequences result :
  reaches (sequences0, []) (sequences, result) →
  no_valid_head sequences = true →
  _c3_merge sequences0 = Raise InconsistentHierarchy.
Proof.
  intros Hr Hstuck. unfold _c3_merge.
  rewrite (reaches_loop _ _ Hr _ (S (total sequences))); simpl; [|lia..].
  by rewrite (no_valid_head_turn _ _ Hstuck).
Qed.

Lemma c3_merge_terminates sequences : _c3_merge sequences ≠ OutOfFuel.
Proof. apply loop_not_out_of_fuel. lia. Qed.

End c3_merge_facts.

(** ** Dictionaries *)

Section dict_facts.
Context {K V : Type} `{EqDecision K}.
Implicit Types (d : list (K * V)) (k : K) (v : V).

Lemma dict_get_set_eq d k v : dict_get (dict_set d k v) k = Some v.
Proof.
  induction d as [|[k' v'] d IH]; simpl.
  - by rewrite decide_True.
  - destruct (decide (k' = k)) as [->|Hne]; simpl.
    + by rewrite decide_True.
    + by rewrite decide_False.
Qed.

Lemma dict_get_set_ne d k k' v :
  k ≠ k' → dict_get (dict_set d k v) k' = dict_get d k'.
Proof.
  intros Hne. induction d as [|[k0 v0] d IH]; simpl.
  - by rewrite decide_False.
  - destruct (decide (k0 = k)) as [->|Hne0]; simpl.
    + by rewrite !decide_False.
    + by rewrite IH.
Qed.


Lemma dict_keys_set d k v k' :
  k' ∈ dict_keys (dict_set d k v) ↔ k' = k ∨ k' ∈ dict_keys d.
Proof.
  unfold dict_keys. induction d as [|[k0 v0] d IH]; simpl.
  - rewrite list_elem_of_singleton. split; [by left|]. intros [|?%elem_of_nil]; done.
  - destruct (decide (k0 = k)) as [->|Hne0]; simpl.
    + rewrite !elem_of_cons. tauto.
    + rewrite !elem_of_cons, IH. tauto.
Qed.

Lemma dict_get_is_Some d k : is_Some (dict_get d k) ↔ k ∈ dict_keys d.
Proof.
  unfold dict_keys. induction d as [|[k0 v0] d IH]; simpl.
  - rewrite elem_of_nil. split; [by intros [??]|done].
  - destruct (decide (k0 = k)) as [->|Hne0].
    + split; [intros _; by left|by eexists].
    + rewrite IH, elem_of_cons. split; [by right|]. by intros [->|?].
Qed.

End dict_facts.

(** ** The trie *)

Section trie_facts.
Implicit Types (env : ClassEnv).
Implicit Types (n current child : Node) (part : Obj) (parts types : list Obj).
Implicit Types (path : list nat).

Lemma Node_eq_value n n' part :
  value n = value n' → Node_eq n part = Node_eq n' part.
Proof. unfold Node_eq. by intros ->. Qed.

Lemma Node_eq_new part : Node_eq (Node_new (Some part)) part = true.
Proof.
  unfold Node_eq. simpl. repeat case_bool_decide; done.
Qed.

Lemma Node_contains_false n part :
  Node_contains n part = false →
  list_find (λ c, Node_eq c part = true) (children n) = None.
Proof.
  unfold Node_contains. intros He.
  destruct (list_find _ _) as [[i c]|] eqn:Hf; [|done].
  apply list_find_Some in Hf as (Hi & Hc & _).
  assert (existsb (λ c, Node_eq c part) (children n) = true) as He'; [|congruence].
  apply existsb_exists. exists c.
  split; [|done]. by eapply list_elem_of_In, list_elem_of_lookup_2.
Qed.

Lemma Node_contains_true n part :
  Node_contains n part = true →
  is_Some (list_find (λ c, Node_eq c part = true) (children n)).
Proof.
  unfold Node_contains. intros (c & Hin & Hc)%existsb_exists.
  apply list_elem_of_In in Hin.
  destruct (list_find _ _) as [[i c']|] eqn:Hf; [by eexists|].
  apply list_find_None in Hf. rewrite Forall_forall in Hf.
  by destruct (Hf c Hin).
Qed.

(** [Node.get] on a value that is not iterable. *)
Lemma Node_get_not_iterable env n part :
  isinstance_Iterable env part = false →
  Node_get env n part
  = Ok (list_find (λ c, Node_eq c part = true) (children n)).
Proof.
  intros Hi. unfold Node_get. rewrite Hi.
  destruct (Node_contains n part) eqn:He; [done|].
  by rewrite Node_contains_false.
Qed.

Lemma children_in_lookup env value cs : ∀ i0 l i c,
  children_in env value i0 cs = Ok l → (i, c) ∈ l →
  ∃ k, i = i0 + k ∧ cs !! k = Some c.
Proof.
  induction cs as [|c0 cs IH]; intros i0 l i c; cbn [children_in].
  - intros [= <-] ?%elem_of_nil. done.
  - destruct (node_in env c0 value) as [e|b]; [done|].
    destruct (children_in env value (S i0) cs) as [l'| |] eqn:Hl;
      simpl; [|done..].
    intros [= <-] Hin.
    assert ((i, c) ∈ l' → ∃ k, i = i0 + k ∧ (c0 :: cs) !! k = Some c) as Hrest.
    { intros Hin'. destruct (IH _ _ _ _ Hl Hin') as (k & -> & Hk).
      exists (S k). split; [lia|done]. }
    destruct b; [|by apply Hrest].
    apply elem_of_cons in Hin as [[= -> ->]|Hin]; [|by apply Hrest].
    exists 0. split; [lia|done].
Qed.

Lemma children_in_not_out_of_fuel env value cs : ∀ i0,
  children_in env value i0 cs ≠ OutOfFuel.
Proof.
  induction cs as [|c0 cs IH]; intros i0; cbn [children_in]; [done|].
  destruct (node_in env c0 value) as [e|b]; [done|].
  specialize (IH (S i0)).
  by destruct (children_in env value (S i0) cs).
Qed.

(** What [Node.get] returns is a child, at the place it is given with. *)
Lemma Node_get_lookup env n part i child :
  Node_get env n part = Ok (Some (i, child)) → children n !! i = Some child.
Proof.
  unfold Node_get. destruct (isinstance_Iterable env part).
  - destruct (children_in env part 0 (children n)) as [l| |] eqn:Hl;
      simpl; [|done..].
    intros [= Hh]. apply head_Some_elem_of in Hh.
    by destruct (children_in_lookup _ _ _ _ _ _ _ Hl Hh) as (k & -> & Hk).
  - destruct (Node_contains n part); [|done].
    intros [= Hf]. by apply list_find_Some in Hf as (? & _).
Qed.

Lemma Node_get_not_out_of_fuel env n part : Node_get env n part ≠ OutOfFuel.
Proof.
  unfold Node_get. destruct (isinstance_Iterable env part).
  - pose proof (children_in_not_out_of_fuel env part (children n) 0).
    by destruct (children_in env part 0 (children n)).
  - by destruct (Node_contains n part).
Qed.

(** The two ways in which a step of the walk of [add_type] goes on. *)
Lemma add_type_from_cons_inv env n part parts types n' :
  add_type_from env n (part :: parts) types = Ok n' →
  (∃ i child child',
     Node_contains n part = true ∧
     Node_get env n part = Ok (Some (i, child)) ∧
     children n !! i = Some child ∧
     add_type_from env child parts types = Ok child' ∧
     n' = mkNode (value n) (<[i := child']> (children n)) (seq n)) ∨
  (∃ new,
     Node_contains n part = false ∧
     add_type_from env (Node_new (Some part)) parts types = Ok new ∧
     n' = add_child n new).
Proof.
  cbn [add_type_from]. destruct (Node_contains n part) eqn:Hc.
  - destruct (Node_get env n part) as [[[i child]|]| |] eqn:Hg;
      simpl; [|done..].
    destruct (add_type_from env child parts types) as [child'| |] eqn:Ha;
      simpl; [|done..].
    intros [= <-]. left. exists i, child, child'.
    split_and!; try done. by eapply Node_get_lookup.
  - destruct (add_type_from env (Node_new (Some part)) parts types)
      as [new| |] eqn:Ha; simpl; [|done..].
    intros [= <-]. right. by exists new.
Qed.

Lemma not_iterable_quiet env types : not_iterable env types → quiet env types.
Proof. intros Hp. eapply Forall_impl; [done|]. intros part ?. by left. Qed.

(** The same for a quiet part: where the walk goes on, it takes the first
    child equal to the part. *)
Lemma add_type_from_quiet_inv env n part parts types n' :
  quiet_part env part →
  add_type_from env n (part :: parts) types = Ok n' →
  match list_find (λ c, Node_eq c part = true) (children n) with
  | Some (i, child) =>
      ∃ child', add_type_from env child parts types = Ok child' ∧
                n' = mkNode (value n) (<[i := child']> (children n)) (seq n)
  | None =>
      ∃ new, add_type_from env (Node_new (Some part)) parts types = Ok new ∧
             n' = add_child n new
  end.
Proof.
  intros Hp [(i & child & child' & Hc & Hg & Hi & Ha & ->)
            |(new & Hc & Ha & ->)]%add_type_from_cons_inv.
  - assert (isinstance_Iterable env part = false) as Hit.
    { destruct Hp as [Hp|Hp]; [done|].
      destruct (isinstance_Iterable env part) eqn:Hit; [exfalso|done].
      unfold Node_get in Hg. rewrite Hit in Hg.
      destruct (children n) as [|c cs]; [done|].
      cbn [children_in] in Hg. destruct (Hp c) as [e He].
      by rewrite He in Hg. }
    rewrite Node_get_not_iterable in Hg by done. injection Hg as ->.
    by exists child'.
  - rewrite Node_contains_false by done. by exists new.
Qed.

Lemma add_type_from_plain_cons env n part parts types :
  isinstance_Iterable env part = false →
  add_type_from env n (part :: parts) types =
  match list_find (λ c, Node_eq c part = true) (children n) with
  | Some (i, child) =>
      child' ← add_type_from env child parts types;
      Ok (mkNode (value n) (<[i := child']> (children n)) (seq n))
  | None =>
      new ← add_type_from env (Node_new (Some part)) parts types;
      Ok (add_child n new)
  end.
Proof.
  intros Hp. cbn [add_type_from]. rewrite Node_get_not_iterable by done.
  destruct (Node_contains n part) eqn:Hc.
  - by destruct (Node_contains_true _ _ Hc) as [[i child] ->].
  - by rewrite Node_contains_false.
Qed.

Lemma add_type_from_not_out_of_fuel env parts : ∀ n types,
  add_type_from env n parts types ≠ OutOfFuel.
Proof.
  induction parts as [|part parts IH]; intros n types; cbn [add_type_from];
    [done|].
  destruct (Node_contains n part).
  - pose proof (Node_get_not_out_of_fuel env n part).
    destruct (Node_get env n part) as [[[i child]|]| |]; simpl; [|done..].
    specialize (IH child types).
    by destruct (add_type_from env child parts types).
  - specialize (IH (Node_new (Some part)) types).
    by destruct (add_type_from env (Node_new (Some part)) parts types).
Qed.

(** An insertion of a signature without iterable element returns. *)
Lemma add_type_from_returns env parts : ∀ n types,
  not_iterable env parts → ∃ n', add_type_from env n parts types = Ok n'.
Proof.
  induction parts as [|part parts IH]; intros n types Hp.
  - by eexists.
  - apply Forall_cons in Hp as [Hpart Hparts]. cbn [add_type_from].
    rewrite Node_get_not_iterable by done.
    destruct (Node_contains n part) eqn:Hc.
    + destruct (Node_contains_true _ _ Hc) as [[i child] ->]. simpl.
      destruct (IH child types Hparts) as [child' ->]. by eexists.
    + destruct (IH (Node_new (Some part)) types Hparts) as [new ->].
      by eexists.
Qed.

Lemma add_type_from_value env n parts types n' :
  add_type_from env n parts types = Ok n' → value n' = value n.
Proof.
  destruct parts as [|part parts].
  - by intros [= <-].
  - by intros [(i & child & child' & _ & _ & _ & _ & ->)
              |(new & _ & _ & ->)]%add_type_from_cons_inv.
Qed.

Lemma route_children n n' parts :
  children n = children n' → route n parts = route n' parts.
Proof. destruct parts; simpl; [done|]. by intros ->. Qed.

Lemma node_at_children n n' i path :
  children n = children n' → node_at n (i :: path) = node_at n' (i :: path).
Proof. simpl. by intros ->. Qed.

(** Replacing a child by a node of the same value does not change which
    child a part finds. *)
Lemma list_find_insert_value (l : list Node) i child child' part :
  l !! i = Some child → value child' = value child →
  list_find (λ c, Node_eq c part = true) (<[i := child']> l) =
  (λ '(j, c), (j, if decide (j = i) then child' else c)) <$>
    list_find (λ c, Node_eq c part = true) l.
Proof.
  intros Hi Hv. revert i Hi.
  induction l as [|x l IH]; intros [|i] Hi; simplify_eq/=.
  - rewrite (Node_eq_value child' child) by done.
    case_decide; [done|].
    by destruct (list_find _ l) as [[j c]|].
  - case_decide; [done|]. rewrite (IH i) by done.
    destruct (list_find _ l) as [[j c]|]; simpl; [|done].
    repeat case_decide; simplify_eq; done.
Qed.

Lemma list_find_lookup (l : list Node) part i child :
  list_find (λ c, Node_eq c part = true) l = Some (i, child) →
  l !! i = Some child.
Proof. by intros (? & _)%list_find_Some. Qed.

Lemma sum_list_insert (f : Node → nat) (l : list Node) i x x' :
  l !! i = Some x → f x' = f x →
  sum_list (map f (<[i := x']> l)) = sum_list (map f l).
Proof.
  intros Hi Hf. revert i Hi.
  induction l as [|y l IH]; intros [|i] Hi; simplify_eq/=; [lia|].
  by rewrite (IH i).
Qed.

Lemma node_count_eq n :
  node_count n = S (sum_list (map node_count (children n))).
Proof. by destruct n. Qed.

(** *** Inserting along existing nodes *)

Lemma route_node_at n parts path :
  route n parts = Some path → is_Some (node_at n path).
Proof.
  revert n path. induction parts as [|part parts IH]; intros n path; simpl.
  - intros [= <-]. by eexists.
  - destruct (list_find _ _) as [[i child]|] eqn:Hf; [|done].
    destruct (route child parts) as [path'|] eqn:Hr; [|done].
    intros [= <-]. simpl. rewrite (list_find_lookup _ _ _ _ Hf). by eapply IH.
Qed.

Lemma route_length n parts path :
  route n parts = Some path → length path = length parts.
Proof.
  revert n path. induction parts as [|part parts IH]; intros n path; simpl.
  - by intros [= <-].
  - destruct (list_find _ _) as [[i child]|] eqn:Hf; [|done].
    destruct (route child parts) as [path'|] eqn:Hr; [|done].
    intros [= <-]. simpl. f_equal. by eapply IH.
Qed.

Lemma add_type_from_count env n parts types path n' :
  quiet env parts →
  route n parts = Some path →
  add_type_from env n parts types = Ok n' →
  node_count n' = node_count n.
Proof.
  revert n path n'. induction parts as [|part parts IH]; intros n path n' Hp.
  - intros _ [= <-]. by rewrite !node_count_eq.
  - apply Forall_cons in Hp as [Hpart Hparts].
    intros Hr Ha%add_type_from_quiet_inv; [|done]. revert Hr Ha.
    cbn [route].
    destruct (list_find _ _) as [[i child]|] eqn:Hf; [|done].
    destruct (route child parts) as [path'|] eqn:Hr; [|done].
    intros _ (child' & Ha & ->).
    rewrite !node_count_eq. simpl. f_equal.
    eapply sum_list_insert; [by eapply list_find_lookup|by eapply IH].
Qed.

Lemma add_type_from_seq env n parts types path p n' :
  quiet env parts →
  route n parts = Some path →
  add_type_from env n parts types = Ok n' →
  seq <$> node_at n' p =
  if decide (p = path) then Some (Some types) else seq <$> node_at n p.
Proof.
  revert n path p n'.
  induction parts as [|part parts IH]; intros n path p n' Hp.
  - intros [= <-] [= <-]. destruct p as [|j p]; [done|].
    rewrite decide_False by done. done.
  - apply Forall_cons in Hp as [Hpart Hparts].
    intros Hr Ha%add_type_from_quiet_inv; [|done]. revert Hr Ha.
    cbn [route].
    destruct (list_find _ _) as [[i child]|] eqn:Hf; [|done].
    destruct (route child parts) as [path'|] eqn:Hr; [|done].
    intros [= <-] (child' & Ha & ->). apply list_find_lookup in Hf.
    destruct p as [|j p]; [done|]. simpl.
    destruct (decide (j = i)) as [->|Hne].
    + rewrite list_lookup_insert_eq by (by eapply lookup_lt_Some).
      rewrite Hf, (IH _ _ p _ Hparts Hr Ha).
      destruct (decide (p = path')) as [->|]; [by rewrite decide_True|].
      rewrite decide_False; [done|congruence].
    + rewrite list_lookup_insert_ne by done.
      rewrite decide_False; [done|congruence].
Qed.

Lemma add_type_from_values env n parts types path p n' :
  quiet env parts →
  route n parts = Some path →
  add_type_from env n parts types = Ok n' →
  value <$> node_at n' p = value <$> node_at n p.
Proof.
  revert n path p n'.
  induction parts as [|part parts IH]; intros n path p n' Hp.
  - intros _ [= <-]. by destruct p.
  - apply Forall_cons in Hp as [Hpart Hparts].
    intros Hr Ha%add_type_from_quiet_inv; [|done]. revert Hr Ha.
    cbn [route].
    destruct (list_find _ _) as [[i child]|] eqn:Hf; [|done].
    destruct (route child parts) as [path'|] eqn:Hr; [|done].
    intros _ (child' & Ha & ->). apply list_find_lookup in Hf.
    destruct p as [|j p]; [done|]. simpl.
    destruct (decide (j = i)) as [->|Hne].
    + rewrite list_lookup_insert_eq by (by eapply lookup_lt_Some).
      rewrite Hf. by eapply IH.
    + by rewrite list_lookup_insert_ne.
Qed.

End trie_facts.

(** *** Where a trie keeps a signature *)

Section trie_payloads.
Implicit Types (env : ClassEnv).
Implicit Types (n current child : Node) (part : Obj) (parts types s : list Obj).
Implicit Types (path p : list nat).

Lemma node_at_new v path n' :
  node_at (Node_new v) path = Some n' → path = [] ∧ n' = Node_new v.
Proof. destruct path as [|i path]; simpl; [by intros [= <-]|done]. Qed.

(** The signatures in a trie after an insertion: the inserted one, or one
    that was there, at the same place. *)
Lemma add_type_from_payload env n parts types n' p n1 s :
  add_type_from env n parts types = Ok n' →
  node_at n' p = Some n1 → seq n1 = Some s →
  s = types ∨ ∃ n0, node_at n p = Some n0 ∧ seq n0 = Some s.
Proof.
  revert n n' p. induction parts as [|part parts IH]; intros n n' p.
  - intros [= <-]. destruct p as [|j p]; simpl.
    + intros [= <-]. simpl. intros [= <-]. by left.
    + intros ??. right. by eexists.
  - intros [(i & child & child' & _ & _ & Hi & Ha & ->)
           |(new & _ & Ha & ->)]%add_type_from_cons_inv.
    + destruct p as [|j p]; simpl.
      { intros [= <-]. simpl. intros ?. right. by eexists. }
      destruct (decide (j = i)) as [->|Hne].
      * rewrite list_lookup_insert_eq by (by eapply lookup_lt_Some).
        rewrite Hi. by apply IH.
      * rewrite list_lookup_insert_ne by done. intros ??. right. by eexists.
    + destruct p as [|j p]; simpl.
      { intros [= <-]. simpl. intros ?. right. by eexists. }
      destruct (decide (j < length (children n))) as [Hlt|Hge].
      * rewrite lookup_app_l by done. intros ??. right. by eexists.
      * rewrite lookup_app_r by lia.
        destruct (j - length (children n)) as [|k]; simpl; [|done].
        intros Hat Hs.
        destruct (IH _ _ _ Ha Hat Hs) as [|(n0 & Hn0 & Hs0)]; [by left|].
        apply node_at_new in Hn0 as [_ ->]. done.
Qed.

Lemma drop_cons_inv {A} d (l : list A) x l' :
  drop d l = x :: l' → drop (S d) l = l'.
Proof.
  intros Hd. replace (S d) with (d + 1) by lia.
  by rewrite <-drop_drop, Hd.
Qed.

(** What [route] says at a path that is not empty. *)
Lemma route_cons_inv n parts i path :
  route n parts = Some (i :: path) →
  ∃ part parts' child,
    parts = part :: parts' ∧
    list_find (λ c, Node_eq c part = true) (children n) = Some (i, child) ∧
    route child parts' = Some path.
Proof.
  destruct parts as [|part parts]; simpl; [done|].
  destruct (list_find _ _) as [[j child]|] eqn:Hf; [|done].
  destruct (route child parts) as [path'|] eqn:Hr; [|done].
  intros [= -> ->]. by exists part, parts, child.
Qed.

Lemma route_nil_inv n parts : route n parts = Some [] → parts = [].
Proof.
  destruct parts as [|part parts]; simpl; [done|].
  destruct (list_find _ _) as [[j child]|]; [|done].
  by destruct (route child parts).
Qed.

Lemma routed_child d n i child :
  children n !! i = Some child → routed d n → routed (S d) child.
Proof.
  intros Hi Hn path n' s Hat Hs.
  specialize (Hn (i :: path) n' s). simpl in Hn. rewrite Hi in Hn.
  apply route_cons_inv in Hn as (part & parts' & child' & Hd & Hf & Hr); [|done..].
  apply list_find_lookup in Hf. simplify_eq.
  by rewrite (drop_cons_inv _ _ _ _ Hd).
Qed.

Lemma routed_add_type_from env parts : ∀ n d types n',
  quiet env parts →
  drop d types = parts → routed d n →
  add_type_from env n parts types = Ok n' → routed d n'.
Proof.
  induction parts as [|part parts IH]; intros n d types n' Hp Hd Hn.
  - intros [= <-]. intros [|j p] n1 s; simpl.
    + intros [= <-]. simpl. intros [= <-]. by rewrite Hd.
    + intros Hat Hs. rewrite <-(Hn (j :: p) n1 s); [|done..].
      by apply route_children.
  - apply Forall_cons in Hp as [Hpart Hparts].
    pose proof (drop_cons_inv _ _ _ _ Hd) as Hd'.
    intros Ha%add_type_from_quiet_inv; [|done]. revert Ha.
    destruct (list_find _ _) as [[i child]|] eqn:Hf.
    + intros (child' & Ha & ->).
      pose proof (list_find_lookup _ _ _ _ Hf) as Hi.
      pose proof (add_type_from_value _ _ _ _ _ Ha) as Hv.
      assert (routed (S d) child') as Hc.
      { eapply IH; [done..| |done]. by eapply routed_child. }
      intros [|j p] n1 s; simpl.
      { intros [= <-]. simpl. intros Hs.
        specialize (Hn [] n s eq_refl Hs). by rewrite (route_nil_inv _ _ Hn). }
      destruct (decide (j = i)) as [->|Hne].
      * rewrite list_lookup_insert_eq by (by eapply lookup_lt_Some).
        intros Hat Hs.
        assert (∃ x, drop d s = x :: drop (S d) s ∧
                     list_find (λ c, Node_eq c x = true) (children n)
                     = Some (i, child)) as (x & Hx & Hfx).
        { destruct (add_type_from_payload _ _ _ _ _ _ _ _ Ha Hat Hs)
            as [->|(n0 & Hn0 & Hs0)].
          - exists part. by rewrite Hd, Hd'.
          - specialize (Hn (i :: p) n0 s). simpl in Hn. rewrite Hi in Hn.
            apply route_cons_inv in Hn
              as (x & parts' & child0 & Hx & Hfx & _); [|done..].
            exists x. rewrite Hx, (drop_cons_inv _ _ _ _ Hx).
            split; [done|]. rewrite Hfx. f_equal. f_equal.
            apply list_find_lookup in Hfx. congruence. }
        rewrite Hx. simpl.
        rewrite (list_find_insert_value _ _ child) by done.
        rewrite Hfx. simpl. rewrite decide_True by done.
        by rewrite (Hc p n1 s).
      * rewrite list_lookup_insert_ne by done.
        destruct (children n !! j) as [c|] eqn:Hj; [|done].
        intros Hat Hs.
        specialize (Hn (j :: p) n1 s). simpl in Hn. rewrite Hj in Hn.
        apply route_cons_inv in Hn
          as (x & parts' & child0 & Hx & Hfx & Hr); [|done..].
        rewrite Hx. simpl.
        rewrite (list_find_insert_value _ _ child) by done.
        rewrite Hfx. simpl. rewrite decide_False by done.
        by rewrite Hr.
    + intros (new & Ha & ->).
      pose proof (add_type_from_value _ _ _ _ _ Ha) as Hv.
      assert (routed (S d) new) as Hc.
      { eapply IH; [done..| |done]. intros p n1 s [-> ->]%node_at_new. done. }
      intros [|j p] n1 s; simpl.
      { intros [= <-]. simpl. intros Hs.
        specialize (Hn [] n s eq_refl Hs). by rewrite (route_nil_inv _ _ Hn). }
      destruct (decide (j < length (children n))) as [Hlt|Hge].
      * rewrite lookup_app_l by done.
        destruct (children n !! j) as [c|] eqn:Hj; [|done].
        intros Hat Hs.
        specialize (Hn (j :: p) n1 s). simpl in Hn. rewrite Hj in Hn.
        apply route_cons_inv in Hn
          as (x & parts' & child0 & Hx & Hfx & Hr); [|done..].
        rewrite Hx. simpl.
        rewrite (list_find_app_l _ _ _ _ _ Hfx). simpl. by rewrite Hr.
      * rewrite lookup_app_r by lia.
        destruct (j - length (children n)) as [|k] eqn:Hk; simpl; [|done].
        assert (j = length (children n)) as -> by lia.
        intros Hat Hs.
        destruct (add_type_from_payload _ _ _ _ _ _ _ _ Ha Hat Hs)
          as [->|(n0 & [_ ->]%node_at_new & Hs0)]; [|done].
        rewrite Hd. simpl.
        rewrite list_find_app_r by done. simpl.
        rewrite decide_True
          by (by rewrite (Node_eq_value _ (Node_new (Some part))) by done;
              apply Node_eq_new).
        pose proof (Hc p n1 types Hat Hs) as Hr. rewrite Hd' in Hr.
        simpl. by rewrite Hr.
Qed.


Lemma built_routed t : built quiet t → routed 0 t.
Proof.
  induction 1 as [|env t types t' _ IH Hp Ha].
  - intros p n' s [-> ->]%node_at_new. done.
  - by eapply routed_add_type_from.
Qed.

(** A trie built of quiet signatures keeps a signature at one place at
    most. *)
Lemma built_payload_unique t p1 p2 n1 n2 s :
  built quiet t →
  node_at t p1 = Some n1 → seq n1 = Some s →
  node_at t p2 = Some n2 → seq n2 = Some s →
  p1 = p2.
Proof.
  intros Ht%built_routed H1 Hs1 H2 Hs2.
  pose proof (Ht _ _ _ H1 Hs1). pose proof (Ht _ _ _ H2 Hs2). congruence.
Qed.

(** What a lookup returns is kept at some node. *)
Lemma Node_get_list_lookup n value child :
  Node_get_list n value = Some child → ∃ i, children n !! i = Some child.
Proof.
  unfold Node_get_list. intros Hh. apply list_elem_of_lookup.
  apply head_Some_elem_of in Hh. by apply list_elem_of_filter in Hh as [_ ?].
Qed.

Lemma getitem_from_node_at n candidates s :
  getitem_from n candidates = KTuple s →
  ∃ p n', node_at n p = Some n' ∧ seq n' = Some s.
Proof.
  revert n. induction candidates as [|typ candidates IH]; intros n.
  - simpl. destruct (seq n) as [s'|] eqn:Hs; [|done].
    intros [= ->]. by exists [], n.
  - cbn [getitem_from].
    destruct (Node_get_list n typ) as [child|] eqn:Hg; [|done].
    intros (p & n' & Hat & Hs)%IH.
    apply Node_get_list_lookup in Hg as [i Hi].
    exists (i :: p), n'. simpl. by rewrite Hi.
Qed.

End trie_payloads.

(** ** What holds in every state of a generic function *)

Lemma check_token_registry env s : registry (check_token env s) = registry s.
Proof. unfold check_token. destruct (cache_token s); [case_decide|]; done. Qed.

Lemma check_token_types_cache env s :
  types_cache (check_token env s) = types_cache s.
Proof. unfold check_token. destruct (cache_token s); [case_decide|]; done. Qed.

Lemma check_token_next_id env s : next_id (check_token env s) = next_id s.
Proof. unfold check_token. destruct (cache_token s); [case_decide|]; done. Qed.

Lemma check_token_funcname env s : funcname (check_token env s) = funcname s.
Proof. unfold check_token. destruct (cache_token s); [case_decide|]; done. Qed.

Lemma check_token_cache env s id impl :
  dispatch_cache (check_token env s) !! id = Some impl →
  dispatch_cache s !! id = Some impl.
Proof.
  unfold check_token. destruct (cache_token s); [case_decide|]; simpl;
    rewrite ?lookup_empty; done.
Qed.

Lemma check_token_inv env s : state_inv s → state_inv (check_token env s).
Proof.
  intros [Hc Hr Hd Ht]. split.
  - intros id impl ?%check_token_cache. rewrite check_token_next_id. eauto.
  - rewrite check_token_registry. done.
  - by rewrite check_token_registry, check_token_funcname.
  - by rewrite check_token_registry, check_token_types_cache.
Qed.

Lemma register_inv env s func force :
  state_inv s → state_inv (register env s func force).1.
Proof.
  intros Hs. unfold register.
  destruct (negb force && _) eqn:Hdup; [done|].
  destruct (existsb _ _) eqn:Hbad; [done|].
  destruct Hs as [Hc Hr (func0 & Hd & Hn) Ht].
  set (registry' := dict_set (registry s) (KTuple (_get_args_type func)) func).
  assert (∀ t, KTuple t ∈ dict_keys registry' →
               Forall (λ c, _is_valid_dispatch_type c = true) t) as Hr'.
  { intros t [[= ->]|Hin]%dict_keys_set; [|by apply Hr].
    apply Forall_forall. intros c Hin.
    destruct (_is_valid_dispatch_type c) eqn:Hv; [done|].
    assert (existsb (λ c, negb (_is_valid_dispatch_type c)) (_get_args_type func)
            = true) as Hex; [|congruence].
    apply existsb_exists. exists c. split; [by apply list_elem_of_In|].
    by rewrite Hv. }
  assert (dict_get registry' KObject = Some func0) as Hd'.
  { unfold registry'. by rewrite dict_get_set_ne. }
  assert (∀ path n t,
            node_at (types_cache s) path = Some n → seq n = Some t →
            KTuple t ∈ dict_keys registry') as Ht'.
  { intros path n t Hat Hseq. apply dict_keys_set. right. by eapply Ht. }
  cbn [types_cache set_registry].
  destruct (add_type env (types_cache s) (_get_args_type func))
    as [t'| |] eqn:Ha; [|by split; simpl; [| |exists func0|]..].
  split; simpl; [| |by exists func0|]; [|done|].
  - intros id impl. by rewrite lookup_empty.
  - intros path n t Hat Hseq.
    destruct (add_type_from_payload _ _ _ _ _ _ _ _ Ha Hat Hseq)
      as [->|(n0 & Hn0 & Hs0)]; [|by eapply Ht'].
    apply dict_keys_set. by left.
Qed.

Lemma dispatch_inv fuel env s cls :
  state_inv s →
  (∀ id classes, cls = ArgGenerator id classes → id < next_id s) →
  state_inv (dispatch fuel env s cls).1.
Proof.
  intros Hs Hid. apply (check_token_inv env) in Hs as Hs'. unfold dispatch.
  destruct (cache_getitem _ cls) as [[impl|]| |]; try done.
  destruct (match registry_getitem _ _ with Some _ => _ | None => _ end)
    as [impl0| |]; try done.
  simpl. destruct cls as [id classes|classes]; [|done].
  destruct Hs' as [Hc Hr Hd Ht]. split; simpl; [|done..].
  intros id' impl'. rewrite check_token_next_id in *.
  destruct (decide (id = id')) as [<-|Hne].
  - intros _. by eapply Hid.
  - rewrite lookup_insert_ne by done. apply Hc.
Qed.

Lemma wrapper_inv fuel env s args :
  state_inv s → state_inv (wrapper fuel env s args).1.
Proof.
  intros Hs. unfold wrapper. destruct args as [|c args]; [done|].
  match goal with
  | |- context [dispatch fuel env ?s' ?cls] =>
      pose proof (dispatch_inv fuel env s' cls) as Hd;
      destruct (dispatch fuel env s' cls) as [s'' impl]
  end.
  simpl in *. apply Hd.
  - destruct Hs as [Hc Hr Hdf Ht]. split; simpl; [|done..].
    intros id impl' ?%Hc. lia.
  - intros id classes [= <- <-]. lia.
Qed.

Lemma reachable_inv s : reachable s → state_inv s.
Proof.
  induction 1 as [func|fuel env s op _ IH].
  - split; simpl.
    + intros id impl. by rewrite lookup_empty.
    + intros t ?%list_elem_of_singleton. done.
    + by exists func.
    + intros path n t [-> ->]%node_at_new. done.
  - destruct op as [func force|args|classes|]; unfold step.
    + by apply register_inv.
    + by apply wrapper_inv.
    + apply dispatch_inv; [done|]. intros id classes' [=].
    + destruct IH as [Hc Hr Hd Ht]. split; simpl; [|done..].
      intros id impl. by rewrite lookup_empty.
Qed.

(** ** What [wrapper] comes to *)

Lemma dispatch_fresh fuel env s id classes :
  dispatch_cache s !! id = None →
  (dispatch fuel env s (ArgGenerator id classes)).2 =
  _find_impl fuel env (ArgGenerator id classes) (registry s) (types_cache s).
Proof.
  intros Hfresh. unfold dispatch. simpl.
  assert (dispatch_cache (check_token env s) !! id = None) as ->.
  { destruct (dispatch_cache (check_token env s) !! id) eqn:Hc; [|done].
    apply check_token_cache in Hc. congruence. }
  rewrite check_token_registry, check_token_types_cache.
  by destruct (_find_impl _ _ _ _ _).
Qed.

Lemma wrapper_fresh fuel env s c args :
  (∀ id impl, dispatch_cache s !! id = Some impl → id < next_id s) →
  (wrapper fuel env s (c :: args)).2 =
  _find_impl fuel env (ArgGenerator 0 (c :: args)) (registry s) (types_cache s)
    ≫= call.
Proof.
  intros Hc. unfold wrapper.
  match goal with
  | |- context [dispatch fuel env ?s' ?cls] =>
      pose proof (dispatch_fresh fuel env s' (next_id s) (c :: args)) as Hd;
      destruct (dispatch fuel env s' cls) as [s'' impl]
  end.
  simpl in *. rewrite Hd; [done|].
  destruct (dispatch_cache s !! next_id s) eqn:Hl; [|done].
  apply Hc in Hl. lia.
Qed.

(** ** Exceptions on the way from the merge to the caller *)

Section propagation.

Lemma mapM_raise {A B} (f : A → Res B) pre x post e :
  Forall (λ y, ∃ v, f y = Ok v) pre → f x = Raise e →
  mapM f (pre ++ x :: post) = Raise e.
Proof.
  intros Hpre Hx. induction Hpre as [|y pre [v Hy] _ IH]; simpl.
  - by rewrite Hx.
  - rewrite Hy. simpl. by rewrite IH.
Qed.

Lemma find_impl_raise fuel env cls registry types_cache e :
  mapM (M := Res)
       (λ c, _compose_mro env fuel c (registered_types registry))
       (iterate cls) = Raise e →
  _find_impl fuel env cls registry types_cache = Raise e.
Proof. unfold _find_impl. by intros ->. Qed.

Lemma mapM_app {A B} (f : A → Res B) l1 l2 :
  mapM f (l1 ++ l2) = x ← mapM f l1; y ← mapM f l2; mret (x ++ y).
Proof.
  induction l1 as [|a l1 IH]; simpl.
  - by destruct (mapM f l2).
  - destruct (f a); simpl; [|done..]. rewrite IH.
    destruct (mapM f l1); simpl; [|done..]. by destruct (mapM f l2).
Qed.

Lemma c3_mro_merge env fuel cls abcs explicit_c3_mros abstract_c3_mros
    other_c3_mros :
  let abcs' := remaining_abcs env cls abcs in
  mapM (λ base, _c3_mro env fuel base abcs') (explicit_bases env cls)
    = Ok explicit_c3_mros →
  mapM (λ base, _c3_mro env fuel base abcs') (abstract_bases env cls abcs)
    = Ok abstract_c3_mros →
  mapM (λ base, _c3_mro env fuel base abcs') (other_bases env cls)
    = Ok other_c3_mros →
  _c3_mro env (S fuel) cls abcs =
  _c3_merge
    ([[cls]] ++
     explicit_c3_mros ++ abstract_c3_mros ++ other_c3_mros ++
     [explicit_bases env cls] ++ [abstract_bases env cls abcs] ++
     [other_bases env cls]).
Proof. simpl. by intros -> -> ->. Qed.

Lemma c3_mro_bases_raise env fuel cls abcs e :
  mapM (λ base, _c3_mro env fuel base (remaining_abcs env cls abcs))
       (explicit_bases env cls ++ abstract_bases env cls abcs ++
        other_bases env cls) = Raise e →
  _c3_mro env (S fuel) cls abcs = Raise e.
Proof.
  rewrite !mapM_app. simpl.
  destruct (mapM _ (explicit_bases env cls)); simpl; [|by intros [= ->]..].
  destruct (mapM _ (abstract_bases env cls abcs)); simpl; [|by intros [= ->]..].
  destruct (mapM _ (other_bases env cls)); simpl; by intros [= ->].
Qed.

Lemma existsb_not_valid cls :
  Forall (λ c, _is_valid_dispatch_type c = true) cls →
  existsb (λ c, negb (_is_valid_dispatch_type c)) cls = false.
Proof.
  induction 1 as [|c cls Hc _ IH]; simpl; [done|]. by rewrite Hc, IH.
Qed.

Lemma existsb_not_valid_elem cls c :
  c ∈ cls → _is_valid_dispatch_type c = false →
  existsb (λ c, negb (_is_valid_dispatch_type c)) cls = true.
Proof.
  intros Hin Hc. apply existsb_exists. exists c.
  split; [by apply list_elem_of_In|by rewrite Hc].
Qed.

End propagation.

(** ** Signatures *)

Section signatures.

Lemma get_type_hints_lookup (params : list Param) (param : Param) :
  NoDup (pname <$> params) → param ∈ params →
  (list_to_map
     (omap (λ param, (λ a, (pname param, a)) <$> annotation param) params)
   : gmap string Obj) !! pname param = annotation param.
Proof.
  induction params as [|q params IH]; [by intros _ ?%elem_of_nil|].
  rewrite fmap_cons, NoDup_cons. intros [Hq Hnd] Hin.
  assert (∀ params' : list Param,
    pname q ∉ pname <$> params' →
    (list_to_map
       (omap (λ param, (λ a, (pname param, a)) <$> annotation param) params')
     : gmap string Obj) !! pname q = None) as Hnone.
  { intros params' Hq'. apply not_elem_of_list_to_map_1.
    intros (kv & Hk & (p' & Hp' & Hkv)%list_elem_of_omap)%list_elem_of_fmap.
    destruct (annotation p'); simplify_eq/=.
    apply Hq'. rewrite Hk. by apply list_elem_of_fmap_2. }
  apply elem_of_cons in Hin as [->|Hin]; simpl.
  - destruct (annotation q) as [a|] eqn:Ha; simpl.
    + by rewrite lookup_insert_eq.
    + by apply Hnone.
  - assert (pname q ≠ pname param) as Hne.
    { intros Heq. apply Hq. rewrite Heq. by apply list_elem_of_fmap_2. }
    destruct (annotation q) as [a|] eqn:Ha; simpl.
    + rewrite lookup_insert_ne by done. by apply IH.
    + by apply IH.
Qed.

Lemma get_args_type_annotations func :
  NoDup (pname <$> parameters func) →
  _get_args_type func = param_annotation <$> parameters func.
Proof.
  intros Hnd. unfold _get_args_type, get_type_hints.
  apply Forall_fmap_ext_1, Forall_forall. intros param Hin.
  rewrite get_type_hints_lookup by done.
  unfold param_annotation. by destruct (annotation param).
Qed.

End signatures.

Section closures_facts.

Lemma dispatch_registry fuel env s cls :
  registry (dispatch fuel env s cls).1 = registry s ∧
  types_cache (dispatch fuel env s cls).1 = types_cache s ∧
  funcname (dispatch fuel env s cls).1 = funcname s.
Proof.
  unfold dispatch.
  destruct (cache_getitem _ cls) as [[impl|]| |]; simpl;
    rewrite ?check_token_registry, ?check_token_types_cache,
      ?check_token_funcname; try done.
  destruct (match registry_getitem _ _ with Some _ => _ | None => _ end)
    as [impl0| |]; simpl;
    rewrite ?check_token_registry, ?check_token_types_cache,
      ?check_token_funcname; try done.
  destruct cls; simpl;
    by rewrite ?check_token_registry, ?check_token_types_cache,
      ?check_token_funcname.
Qed.

Lemma wrapper_registry fuel env s args :
  registry (wrapper fuel env s args).1 = registry s ∧
  types_cache (wrapper fuel env s args).1 = types_cache s ∧
  funcname (wrapper fuel env s args).1 = funcname s.
Proof.
  unfold wrapper. destruct args as [|c args]; [done|].
  match goal with
  | |- context [dispatch fuel env ?s' ?cls] =>
      pose proof (dispatch_registry fuel env s' cls) as Hd;
      destruct (dispatch fuel env s' cls) as [s'' impl]
  end.
  done.
Qed.

Lemma wrapper_resolve fuel env s args :
  state_inv s → (wrapper fuel env s args).2 = resolve fuel env s args.
Proof.
  intros [Hc _ _ _]. destruct args as [|c args]; [done|].
  by apply wrapper_fresh.
Qed.


(** A search of the trie that does not stop on a node without signature
    gives a key of the registry. *)
Lemma getitem_registered s candidates :
  state_inv s →
  getitem (types_cache s) candidates ≠ KNone →
  is_Some (dict_get (registry s) (getitem (types_cache s) candidates)).
Proof.
  intros [_ _ (func & Hd & _) Ht] Hne. unfold getitem in *.
  destruct (getitem_from (types_cache s) candidates) as [| |t] eqn:Hg.
  - done.
  - by exists func.
  - apply getitem_from_node_at in Hg as (path & n & Hat & Hseq).
    apply dict_get_is_Some. by eapply Ht.
Qed.

(** So a call resolves to a registered implementation whenever the
    argument classes can be linearized and the search does not stop on a
    node without signature. *)
Lemma wrapper_total_on_finished_walks fuel env s args mros :
  reachable s → args ≠ [] →
  mapM (λ c, _compose_mro env fuel c (registered_types (registry s))) args
    = Ok mros →
  getitem (types_cache s) (map (map OClass) mros) ≠ KNone →
  ∃ func,
    (wrapper fuel env s args).2 = Ok func ∧
    dict_get (registry s) (getitem (types_cache s) (map (map OClass) mros))
      = Some func.
Proof.
  intros Hs%reachable_inv Hargs Hm Hne.
  destruct (getitem_registered s _ Hs Hne) as [func Hfunc].
  exists func. split; [|done].
  rewrite wrapper_resolve by done. unfold resolve.
  destruct args as [|c args]; [done|].
  unfold _find_impl. simpl in *. rewrite Hm. simpl. by rewrite Hfunc.
Qed.

End closures_facts.

(** ** Building a trie, and the class graphs of the examples *)

Lemma build_tree_built P env t types t' :
  built P t → Forall (P env) types →
  build_tree env t types = Ok t' → built P t'.
Proof.
  intros Ht Hp. revert t Ht.
  induction Hp as [|types0 types Hp0 _ IH]; intros t Ht; cbn [build_tree].
  - by intros [= <-].
  - destruct (add_type env t types0) as [t1| |] eqn:Ha; simpl; [|done..].
    apply IH. by eapply built_add.
Qed.

Lemma zoo_not_iterable types : not_iterable Zoo.zoo types.
Proof. by apply Forall_forall. Qed.

Lemma zoo_quiet types : quiet Zoo.zoo types.
Proof. apply not_iterable_quiet, zoo_not_iterable. Qed.

(** What [register] comes to according to the insertion into the trie. *)
Lemma register_written env s func force :
  (force = true ∨ KTuple (_get_args_type func) ∉ dict_keys (registry s)) →
  Forall (λ c, _is_valid_dispatch_type c = true) (_get_args_type func) →
  let cls := _get_args_type func in
  let s1 := set_registry s (dict_set (registry s) (KTuple cls) func) in
  match add_type env (types_cache s) cls with
  | Ok t' =>
      (register env s func force).2 = Ok func ∧
      registry (register env s func force).1 = registry s1 ∧
      types_cache (register env s func force).1 = t' ∧
      dispatch_cache (register env s func force).1 = ∅ ∧
      funcname (register env s func force).1 = funcname s ∧
      next_id (register env s func force).1 = next_id s
  | Raise e => register env s func force = (s1, Raise e)
  | OutOfFuel => False
  end.
Proof.
  intros Hforce Hvalid cls s1. unfold register. fold cls.
  assert (negb force && bool_decide (KTuple cls ∈ dict_keys (registry s))
          = false) as ->.
  { destruct Hforce as [->|Hnew]; [done|].
    by rewrite bool_decide_eq_false_2, andb_false_r. }
  rewrite existsb_not_valid by done. fold s1. cbn [types_cache set_registry s1].
  pose proof (add_type_from_not_out_of_fuel env cls (types_cache s) cls) as Hf.
  unfold add_type.
  by destruct (add_type_from env (types_cache s) cls cls) as [t'|e|].
Qed.

(** * The claims *)

(** C1 (totality of resolution; the code falls short of it).  The
    registry holds the default implementation [D] under [object] and [B]
    under [(Dog, Cat)].  A call with one argument of class [Dog] walks the
    trie to the node of [Dog], which ends no signature: its [seq] is
    [None], [registry.get(None)] is [None], [dispatch] returns [None] and
    [wrapper] fails when it calls it. *)
Theorem C1_unfinished_walk_resolves_to_None :
  let s := Zoo.registered [Zoo.B] in
  dict_get (registry s) KObject = Some Zoo.D ∧
  getitem (types_cache s) [[Zoo.Dog; Zoo.Animal; OClass object]] = KNone ∧
  (dispatch 10 Zoo.zoo s (ArgGenerator 0 ["Dog"])).2 = Ok None ∧
  (wrapper 10 Zoo.zoo s ["Dog"]).2 = Raise NoneNotCallable.
Proof. by vm_compute. Qed.

(** C2 (exact-match precedence; the code falls short of it).  [B] is
    registered for [(Dog, Cat)], then [A] for [(Dog, wildcard)].  A call
    with the classes [(Dog, Cat)] runs [A]: the key that [wrapper] hands to
    [dispatch] is a generator object, which no lookup in [registry] finds,
    and the trie search ends on the node whose signature the second
    registration replaced.  Handing the tuple itself to [dispatch] raises
    in the weak dictionary, before the registry is looked at. *)
Theorem C2_exact_signature_not_preferred :
  let s := Zoo.registered [Zoo.B; Zoo.A] in
  dict_get (registry s) (KTuple [Zoo.Dog; Zoo.Cat]) = Some Zoo.B ∧
  (wrapper 10 Zoo.zoo s ["Dog"; "Cat"]).2 = Ok Zoo.A ∧
  (∀ registry id classes,
     registry_getitem registry (ArgGenerator id classes) = None) ∧
  (dispatch 10 Zoo.zoo s (ArgTuple ["Dog"; "Cat"])).2
    = Raise NotWeakReferenceable.
Proof. by vm_compute. Qed.

(** C3 (trie lookup order; the code falls short of it).  With the
    signatures [(Animal,)] and [(Dog,)] inserted in that order and the
    linearized order [Dog, Animal, object] of [Dog], [Node.get] returns
    the child of [Animal]: it takes the first child, in the order of
    insertion, that is equal to any class of the list, not the child of
    the first class of the list that has one. So a call on a [Dog] runs
    the implementation for [Animal]. *)
Theorem C3_lookup_takes_first_child_not_most_specific :
  ∃ t,
    build_tree Zoo.zoo TypeTree_new [[Zoo.Animal]; [Zoo.Dog]] = Ok t ∧
    let order := [Zoo.Dog; Zoo.Animal; OClass object] in
    _compose_mro Zoo.zoo 10 "Dog" [Zoo.Animal; Zoo.Dog]
      = Ok ["Dog"; "Animal"; "object"] ∧
    value <$> (children t !! 1) = Some (Some Zoo.Dog) ∧
    value <$> Node_get_list t order = Some (Some Zoo.Animal) ∧
    getitem t [order] = KTuple [Zoo.Animal] ∧
    (wrapper 10 Zoo.zoo (Zoo.registered [Zoo.on_animal; Zoo.on_dog]) ["Dog"]).2
      = Ok Zoo.on_animal.
Proof. eexists. split; [reflexivity|]. by vm_compute. Qed.

(** C4 (the scenario with two parameters; the code falls short of it).
    With [D] the decorated function, [A] registered for [(Dog, wildcard)]
    and then [B] for [(Dog, Cat)], the calls with [(Dog, Cat)] and
    [(Bird, Cat)] run [B] and [D], but the call with [(Dog, Bird)] runs
    [B], not [A]: the insertion of [(Dog, Cat)] went into the node of the
    wildcard and replaced its signature.  When [D] is registered for
    [(wildcard, wildcard)] as well, all three calls run [B]. *)
Theorem C4_scenario_Dog_Bird_runs_B :
  let s := Zoo.registered [Zoo.A; Zoo.B] in
  (wrapper 10 Zoo.zoo s ["Dog"; "Cat"]).2 = Ok Zoo.B ∧
  (wrapper 10 Zoo.zoo s ["Dog"; "Bird"]).2 = Ok Zoo.B ∧
  (wrapper 10 Zoo.zoo s ["Bird"; "Cat"]).2 = Ok Zoo.D ∧
  let s' := Zoo.registered [Zoo.D; Zoo.A; Zoo.B] in
  (wrapper 10 Zoo.zoo s' ["Dog"; "Cat"]).2 = Ok Zoo.B ∧
  (wrapper 10 Zoo.zoo s' ["Dog"; "Bird"]).2 = Ok Zoo.B ∧
  (wrapper 10 Zoo.zoo s' ["Bird"; "Cat"]).2 = Ok Zoo.B.
Proof. by vm_compute. Qed.







(** C7 (invalid signature, no mutation).  When the signature of [func]
    has an element that is not a class (the wildcard marker is a class),
    [register], with or without [force], raises the error for an invalid
    signature and returns the state as it was: registry, trie, cache and
    token. *)
Theorem C7_invalid_signature_changes_nothing
    (env : ClassEnv) (s : State) (func : Func) (force : bool) (c : Obj) :
  reachable s →
  c ∈ _get_args_type func →
  (∀ k, c ≠ OClass k) →
  register env s func force
    = (s, Raise (InvalidSignatureElement (_get_args_type func))).
Proof.
  intros Hs%reachable_inv Hin Hc.
  assert (_is_valid_dispatch_type c = false) as Hv.
  { destruct c as [k| |]; [by destruct (Hc k)|done..]. }
  unfold register.
  rewrite bool_decide_eq_false_2, andb_false_r.
  - by rewrite (existsb_not_valid_elem _ c).
  - intros Hk%(inv_registry_valid _ Hs).
    rewrite Forall_forall in Hk. specialize (Hk c Hin). congruence.
Qed.

Lemma C7_invalid_signature_changes_nothing_witness :
  let s := Zoo.registered [Zoo.A] in
  reachable s ∧
  OAlias "list[Dog]" ∈ _get_args_type Zoo.aliased ∧
  (∀ k, OAlias "list[Dog]" ≠ OClass k) ∧
  register Zoo.zoo s Zoo.aliased true
    = (s, Raise (InvalidSignatureElement [OAlias "list[Dog]"])).
Proof.
  intros s.
  assert (reachable s) as Hs.
  { apply (reachable_step 0 Zoo.zoo _ (OpRegister Zoo.A false)), reachable_init. }
  assert (OAlias "list[Dog]" ∈ _get_args_type Zoo.aliased) as Hin.
  { apply (bool_decide_unpack _). vm_compute. reflexivity. }
  assert (∀ k, OAlias "list[Dog]" ≠ OClass k) as Hc by (intros k; discriminate).
  split_and!; [done..|].
  apply (C7_invalid_signature_changes_nothing
           Zoo.zoo s Zoo.aliased true _ Hs Hin Hc).
Defined.

(** C8 (inconsistent hierarchy).  When the merge loop comes to sequences
    of which some are not empty and each head occurs in the tail of
    another one, [_c3_merge] raises the error; [_c3_mro] raises what its
    merge raises and what the linearization of a base raises; and a call
    whose argument classes cannot all be linearized ends with the error of
    the first one that cannot, from [dispatch] and from [wrapper]
    ([register] linearizes nothing). *)
Theorem C8_inconsistent_hierarchy_raised_and_propagated :
  (∀ sequences0 sequences result,
     C3Spec.reaches (sequences0, []) (sequences, result) →
     C3Spec.no_valid_head sequences = true →
     _c3_merge sequences0 = Raise InconsistentHierarchy)
  ∧ (∀ env fuel cls abcs explicit_c3_mros abstract_c3_mros other_c3_mros e,
       mapM (λ base, _c3_mro env fuel base (remaining_abcs env cls abcs))
            (explicit_bases env cls) = Ok explicit_c3_mros →
       mapM (λ base, _c3_mro env fuel base (remaining_abcs env cls abcs))
            (abstract_bases env cls abcs) = Ok abstract_c3_mros →
       mapM (λ base, _c3_mro env fuel base (remaining_abcs env cls abcs))
            (other_bases env cls) = Ok other_c3_mros →
       _c3_merge
         ([[cls]] ++
          explicit_c3_mros ++ abstract_c3_mros ++ other_c3_mros ++
          [explicit_bases env cls] ++ [abstract_bases env cls abcs] ++
          [other_bases env cls]) = Raise e →
       _c3_mro env (S fuel) cls abcs = Raise e)
  ∧ (∀ env fuel cls abcs e,
       mapM (λ base, _c3_mro env fuel base (remaining_abcs env cls abcs))
            (explicit_bases env cls ++ abstract_bases env cls abcs ++
             other_bases env cls) = Raise e →
       _c3_mro env (S fuel) cls abcs = Raise e)
  ∧ (∀ fuel env s pre c post e,
       reachable s →
       Forall (λ c', ∃ m,
                 _compose_mro env fuel c' (registered_types (registry s)) = Ok m)
              pre →
       _compose_mro env fuel c (registered_types (registry s)) = Raise e →
       (dispatch fuel env s (ArgGenerator (next_id s) (pre ++ c :: post))).2
         = Raise e ∧
       (wrapper fuel env s (pre ++ c :: post)).2 = Raise e).
Proof.
  split_and!.
  - apply c3_merge_stuck.
  - intros env fuel cls abcs m1 m2 m3 e H1 H2 H3 He.
    by rewrite (c3_mro_merge env fuel cls abcs m1 m2 m3).
  - apply c3_mro_bases_raise.
  - intros fuel env s pre c post e Hs%reachable_inv Hpre Hc.
    assert (_find_impl fuel env (ArgGenerator 0 (pre ++ c :: post))
              (registry s) (types_cache s) = Raise e) as Hf.
    { apply find_impl_raise. simpl. by apply mapM_raise. }
    split.
    + rewrite dispatch_fresh; [done|].
      destruct (dispatch_cache s !! next_id s) eqn:Hl; [|done].
      apply (inv_cache_ids _ Hs) in Hl. lia.
    + rewrite wrapper_resolve by done. unfold resolve.
      destruct (pre ++ c :: post) eqn:Hargs; [by destruct pre|].
      by rewrite Hf.
Qed.

Lemma C8_inconsistent_hierarchy_witness :
  let sequences0 :=
    [["C"]; ["B1"; "R"; "K1"; "S"; "object"]; ["B2"; "S"; "K2"; "R"; "object"];
     []; []; ["B1"; "B2"]] in
  let sequences := [["R"; "K1"; "S"; "object"]; ["S"; "K2"; "R"; "object"]; []] in
  C3Spec.reaches (sequences0, []) (sequences, ["C"; "B1"; "B2"]) ∧
  C3Spec.no_valid_head sequences = true ∧
  _c3_merge sequences0 = Raise InconsistentHierarchy ∧
  _c3_mro Ponds.ponds 5 "C" ["R"; "S"] = Raise InconsistentHierarchy ∧
  reachable Ponds.registered ∧
  _compose_mro Ponds.ponds 5 "C" (registered_types (registry Ponds.registered))
    = Raise InconsistentHierarchy ∧
  (wrapper 5 Ponds.ponds Ponds.registered ["C"]).2 = Raise InconsistentHierarchy.
Proof.
  intros sequences0 sequences.
  destruct C8_inconsistent_hierarchy_raised_and_propagated
    as (Hmerge & Hmro & _ & Hcall).
  assert (C3Spec.reaches (sequences0, []) (sequences, ["C"; "B1"; "B2"])) as Hr.
  { eapply C3Spec.reaches_turn; [vm_compute; reflexivity|].
    eapply C3Spec.reaches_turn; [vm_compute; reflexivity|].
    eapply C3Spec.reaches_turn; [vm_compute; reflexivity|].
    apply C3Spec.reaches_here. }
  assert (C3Spec.no_valid_head sequences = true) as Hstuck
    by (vm_compute; reflexivity).
  assert (reachable Ponds.registered) as Hs.
  { apply (reachable_step 0 Ponds.ponds _ (OpRegister Ponds.on_S false)),
      (reachable_step 0 Ponds.ponds _ (OpRegister Ponds.on_R false)),
      reachable_init. }
  assert (_compose_mro Ponds.ponds 5 "C"
            (registered_types (registry Ponds.registered))
          = Raise InconsistentHierarchy) as Hc by (vm_compute; reflexivity).
  split_and!; [done..| | |done|done|].
  - exact (Hmerge sequences0 sequences _ Hr Hstuck).
  - apply (Hmro Ponds.ponds 4 "C" ["R"; "S"] []
                [] [["B1"; "R"; "K1"; "S"; "object"];
                    ["B2"; "S"; "K2"; "R"; "object"]]);
      [vm_compute; reflexivity..|].
    exact (Hmerge sequences0 sequences _ Hr Hstuck).
  - exact (proj2 (Hcall 5 Ponds.ponds Ponds.registered [] "C" [] _ Hs
                        (Forall_nil_2 _) Hc)).
Defined.

(** C9, counterexample.  [def keyed(a: Dog, *, key: Cat)] is registered
    under [(Dog, Cat)], not under the annotations [(Dog,)] of its
    positional parameters. *)
Lemma C9_counterexample_keyword_only_parameter :
  let r := register Zoo.zoo (multi_dispatch Zoo.D) Zoo.keyed false in
  r.2 = Ok Zoo.keyed ∧
  positional_annotations Zoo.keyed = [Zoo.Dog] ∧
  dict_keys (registry r.1) = [KObject; KTuple [Zoo.Dog; Zoo.Cat]] ∧
  (KTuple (positional_annotations Zoo.keyed) ∉ dict_keys (registry r.1)) ∧
  _get_args_type Zoo.keyed ≠ positional_annotations Zoo.keyed.
Proof.
  split_and!; [by vm_compute..| |by vm_compute].
  apply (bool_decide_unpack _). by vm_compute.
Qed.

(** C9, amended.  The signature of a function is the tuple of the
    annotations of all its parameters (positional, keyword-only and
    variadic alike) in declaration order, with the wildcard marker for a
    parameter without annotation; a registration that succeeds puts the
    function under this signature in the registry and inserts the
    signature into the trie; when no parameter is annotated the signature
    has the wildcard marker at every position. *)
Theorem C9_signature_from_all_annotations
    (env : ClassEnv) (s s' : State) (func : Func) (force : bool) :
  NoDup (pname <$> parameters func) →
  register env s func force = (s', Ok func) →
  let signature := param_annotation <$> parameters func in
  _get_args_type func = signature ∧
  dict_get (registry s') (KTuple signature) = Some func ∧
  add_type env (types_cache s) signature = Ok (types_cache s') ∧
  (Forall (λ param, annotation param = None) (parameters func) →
   signature = replicate (length (parameters func)) (OClass IGNORE_TYPE)).
Proof.
  intros Hnd Hreg signature.
  pose proof (get_args_type_annotations func Hnd) as Hsig.
  unfold register in Hreg. rewrite Hsig in Hreg. fold signature in Hreg.
  destruct (negb force && _); [done|].
  destruct (existsb _ _); [done|].
  cbn [types_cache set_registry] in Hreg.
  destruct (add_type env (types_cache s) signature) as [t'| |] eqn:Ha;
    [|done..].
  injection Hreg as <-. simpl. split_and!; [done| |done|].
  - apply dict_get_set_eq.
  - unfold signature. clear. induction 1 as [|param params Hp _ IH]; [done|].
    simpl. f_equal; [|done]. unfold param_annotation. by rewrite Hp.
Qed.

Lemma C9_signature_from_all_annotations_witness :
  let r := register Zoo.zoo (multi_dispatch Zoo.D) Zoo.keyed false in
  NoDup (pname <$> parameters Zoo.keyed) ∧
  r = (r.1, Ok Zoo.keyed) ∧
  _get_args_type Zoo.keyed = [Zoo.Dog; Zoo.Cat] ∧
  dict_get (registry r.1) (KTuple [Zoo.Dog; Zoo.Cat]) = Some Zoo.keyed.
Proof.
  intros r.
  assert (NoDup (pname <$> parameters Zoo.keyed)) as Hnd.
  { apply (bool_decide_unpack _). vm_compute. reflexivity. }
  assert (r = (r.1, Ok Zoo.keyed)) as Hreg by (vm_compute; reflexivity).
  destruct (C9_signature_from_all_annotations
              Zoo.zoo (multi_dispatch Zoo.D) r.1 Zoo.keyed false Hnd Hreg)
    as (Hsig & Hget & _ & _).
  split_and!; [done..|exact Hsig|exact Hget].
Defined.

(** C10, counterexample.  In the trie of [(Dog, Bird)] and [(Cat, Fish)]
    each element of [(wildcard, Fish)] is equal to the node at its
    position on the path to the leaf of [(Cat, Fish)]; yet the insertion
    follows the first child, [Dog], adds a node below it, and leaves the
    signature at the leaf of [(Cat, Fish)] as it was. *)
Lemma C10_counterexample_match_on_another_path :
  ∃ t t',
    build_tree Zoo.zoo TypeTree_new [[Zoo.Dog; Zoo.Bird]; [Zoo.Cat; Zoo.Fish]]
      = Ok t ∧
    let types := [Zoo.wildcard; Zoo.Fish] in
    add_type Zoo.zoo t types = Ok t' ∧
    built quiet t ∧
    matches_along t types [1; 0] = true ∧
    node_count t' = S (node_count t) ∧
    seq <$> node_at t' [1; 0] = Some (Some [Zoo.Cat; Zoo.Fish]) ∧
    seq <$> node_at t' [0; 1] = Some (Some types).
Proof.
  eexists _, _. split; [reflexivity|]. split; [reflexivity|].
  split; [|by vm_compute].
  eapply (build_tree_built _ Zoo.zoo _
            [[Zoo.Dog; Zoo.Bird]; [Zoo.Cat; Zoo.Fish]]);
    [apply built_new| |reflexivity].
  apply Forall_forall. intros ??. apply zoo_quiet.
Qed.

(** C10, amended.  Take a trie built of quiet signatures (their elements
    are not iterable, or [node in value] raises for them, as for an
    [Enum] class) and a signature without iterable element.  When the
    walk of the insertion (at each node, the first child equal to the
    part in the sense of [Node.__eq__]) finds a child for every element
    of the signature, the insertion returns, adds no node and changes no
    value, puts the signature at the node where the walk ends and leaves
    every other node's signature as it was; a different signature that
    was kept at that node is then kept nowhere in the trie and no lookup
    returns it. *)
Theorem C10_insertion_along_its_walk_overwrites
    (env : ClassEnv) (t : TypeTree) (types : list Obj) (path : list nat) :
  built quiet t →
  not_iterable env types →
  route t types = Some path →
  ∃ t', add_type env t types = Ok t' ∧
  node_count t' = node_count t ∧
  (∀ p, value <$> node_at t' p = value <$> node_at t p) ∧
  seq <$> node_at t' path = Some (Some types) ∧
  (∀ p, p ≠ path → seq <$> node_at t' p = seq <$> node_at t p) ∧
  (∀ old,
     seq <$> node_at t path = Some (Some old) → old ≠ types →
     (∀ p, seq <$> node_at t' p ≠ Some (Some old)) ∧
     (∀ candidates, getitem t' candidates ≠ KTuple old)).
Proof.
  intros Ht Hni Hr.
  destruct (add_type_from_returns env types t types Hni) as [t' Ha].
  exists t'. split; [done|].
  pose proof (not_iterable_quiet _ _ Hni) as Hp.
  assert (∀ old,
     seq <$> node_at t path = Some (Some old) → old ≠ types →
     ∀ p, seq <$> node_at t' p ≠ Some (Some old))
    as Hgone.
  { intros old Hold Hne p. rewrite (add_type_from_seq _ _ _ _ _ _ _ Hp Hr Ha).
    case_decide as Hp'; [congruence|].
    intros Hp''. apply Hp'.
    destruct (node_at t p) as [n1|] eqn:H1; [|done].
    destruct (node_at t path) as [n2|] eqn:H2; [|done].
    simplify_eq/=. by eapply (built_payload_unique t p path n1 n2). }
  split_and!.
  - by eapply add_type_from_count.
  - intros p. by eapply add_type_from_values.
  - rewrite (add_type_from_seq _ _ _ _ _ _ _ Hp Hr Ha). by rewrite decide_True.
  - intros p Hp'. rewrite (add_type_from_seq _ _ _ _ _ _ _ Hp Hr Ha).
    by rewrite decide_False.
  - intros old Hold Hne. split; [by apply Hgone|].
    intros candidates (p & n' & Hat & Hs)%getitem_from_node_at.
    apply (Hgone old Hold Hne p). by rewrite Hat, <-Hs.
Qed.

Lemma C10_insertion_along_its_walk_overwrites_witness :
  ∃ t,
    build_tree Zoo.zoo TypeTree_new [[Zoo.Dog; Zoo.wildcard]] = Ok t ∧
    let types := [Zoo.Dog; Zoo.Cat] in
    built quiet t ∧
    not_iterable Zoo.zoo types ∧
    route t types = Some [0; 0] ∧
    ∃ t', add_type Zoo.zoo t types = Ok t' ∧
      node_count t' = node_count t ∧
      seq <$> node_at t' [0; 0] = Some (Some types) ∧
      (∀ candidates, getitem t' candidates ≠ KTuple [Zoo.Dog; Zoo.wildcard]).
Proof.
  eexists. split; [reflexivity|]. intros types.
  match goal with |- built _ ?t0 ∧ _ => set (t := t0) end.
  assert (built quiet t) as Ht.
  { eapply (build_tree_built _ Zoo.zoo _ [[Zoo.Dog; Zoo.wildcard]]);
      [apply built_new| |reflexivity].
    apply Forall_forall. intros ??. apply zoo_quiet. }
  assert (not_iterable Zoo.zoo types) as Hp by apply zoo_not_iterable.
  assert (route t types = Some [0; 0]) as Hr by (vm_compute; reflexivity).
  destruct (C10_insertion_along_its_walk_overwrites Zoo.zoo t types [0; 0]
              Ht Hp Hr)
    as (t' & Ha & Hcount & _ & Hseq & _ & Hold).
  split_and!; [done..|]. exists t'. split_and!; [done..|].
  apply (Hold [Zoo.Dog; Zoo.wildcard]); [vm_compute; reflexivity|discriminate].
Defined.

(** * Further properties *)

(** ** The merge *)

Section c3_merge_results.
Import C3 C3Spec C3More.

Local Arguments total : simpl never.
Local Arguments remove_candidate : simpl never.

Lemma purge_nil sequences s : purge sequences = [] → s ∈ sequences → s = [].
Proof.
  unfold purge. intros Hp Hin.
  destruct s as [|x s]; [done|].
  assert (x :: s ∈ filter (λ s, s ≠ []) sequences) as Hf
    by (apply list_elem_of_filter; split; done).
  rewrite Hp in Hf. by apply elem_of_nil in Hf.
Qed.

Lemma elem_of_purge sequences s : s ∈ purge sequences ↔ s ≠ [] ∧ s ∈ sequences.
Proof. unfold purge. by rewrite list_elem_of_filter. Qed.

Lemma find_candidate_not_rejected sequences rest c :
  find_candidate sequences rest = Some c → rejected c sequences = false.
Proof.
  induction rest as [|s rest IH]; [done|]. simpl.
  destruct s as [|x s]; [done|].
  destruct (rejected x sequences) eqn:Hr; [done|]. by intros [= <-].
Qed.

Lemma not_rejected_tail c sequences s :
  rejected c sequences = false → s ∈ sequences → c ∉ tail s.
Proof.
  intros Hr Hin Hc.
  by rewrite (rejected_true c sequences s) in Hr.
Qed.

Lemma elem_of_remove_candidate c sequences s' :
  s' ∈ remove_candidate c sequences ↔ ∃ s, s ∈ sequences ∧ s' = after c s.
Proof.
  unfold remove_candidate. rewrite list_elem_of_fmap.
  split; intros (s & ? & ?); exists s; done.
Qed.

Lemma after_elem c s x : x ∈ after c s → x ∈ s.
Proof.
  destruct s as [|y s]; simpl; [done|].
  case_bool_decide; [by right|done].
Qed.

Lemma after_chosen c s : c ∉ tail s → c ∉ after c s.
Proof.
  destruct s as [|y s]; simpl; [by intros _ ?%elem_of_nil|].
  case_bool_decide as Hy; [done|].
  intros Hc [->|?]%elem_of_cons; done.
Qed.

Lemma after_other c s x : x ∈ s → x ≠ c → x ∈ after c s.
Proof.
  destruct s as [|y s]; simpl; [done|].
  case_bool_decide as Hy; [|done].
  intros [->|?]%elem_of_cons ?; done.
Qed.

Lemma after_sublist c s rest :
  after c s `sublist_of` rest → s `sublist_of` c :: rest.
Proof.
  destruct s as [|y s]; simpl; [intros _; apply sublist_nil_l|].
  case_bool_decide as Hy; [subst; apply sublist_skip|apply sublist_cons].
Qed.

(** What the loop returns, from the state it is in. *)
Lemma loop_ok fuel sequences result res :
  loop fuel sequences result = Ok res →
  ∃ rest, res = result ++ rest ∧ NoDup rest ∧
    (∀ x, x ∈ rest ↔ ∃ s, s ∈ sequences ∧ x ∈ s) ∧
    (∀ s, s ∈ sequences → s `sublist_of` rest).
Proof.
  revert sequences result.
  induction fuel as [|fuel IH]; intros sequences result; [done|].
  simpl. unfold turn.
  destruct (purge sequences) as [|s0 l0] eqn:Hp.
  - intros [= <-]. exists []. rewrite app_nil_r.
    split_and!; [done|constructor| |].
    + intros x. split; [by intros ?%elem_of_nil|].
      intros (s & Hs & Hx). rewrite (purge_nil _ _ Hp Hs) in Hx.
      by apply elem_of_nil in Hx.
    + intros s Hs. by rewrite (purge_nil _ _ Hp Hs).
  - rewrite <-Hp.
    destruct (find_candidate (purge sequences) (purge sequences))
      as [c|] eqn:Hc; [|done].
    intros (rest & -> & Hnd & Hmem & Hsub)%IH.
    pose proof (find_candidate_not_rejected _ _ _ Hc) as Hrej.
    apply find_candidate_head in Hc as (sc & Hsc & Hhead).
    exists (c :: rest). rewrite <-(assoc_L (++)). split_and!; [done| | |].
    + apply NoDup_cons. split; [|done].
      rewrite Hmem. intros (s' & (s & Hs & ->)%elem_of_remove_candidate & Hx).
      apply (after_chosen c s); [by eapply not_rejected_tail|done].
    + intros x. rewrite elem_of_cons, Hmem. split.
      * intros [->|(s' & (s & Hs & ->)%elem_of_remove_candidate & Hx)].
        -- exists sc. apply elem_of_purge in Hsc as [_ ?]. split; [done|].
           destruct sc; simplify_eq/=. by left.
        -- exists s. apply elem_of_purge in Hs as [_ ?].
           split; [done|]. by eapply after_elem.
      * intros (s & Hs & Hx).
        destruct (decide (x = c)) as [|Hne]; [by left|]. right.
        exists (after c s). split; [|by apply after_other].
        apply elem_of_remove_candidate. exists s. split; [|done].
        apply elem_of_purge. split; [|done]. intros ->.
        by apply elem_of_nil in Hx.
    + intros s Hs. destruct (decide (s = [])) as [->|Hne];
        [apply sublist_nil_l|].
      apply after_sublist, Hsub, elem_of_remove_candidate.
      exists s. split; [|done]. by apply elem_of_purge.
Qed.

Lemma loop_raise fuel sequences result e :
  loop fuel sequences result = Raise e →
  e = InconsistentHierarchy ∧
  ∃ sequences' result',
    reaches (sequences, result) (sequences', result') ∧
    purge sequences' ≠ [] ∧
    find_candidate (purge sequences') (purge sequences') = None.
Proof.
  revert sequences result.
  induction fuel as [|fuel IH]; intros sequences result; [done|].
  simpl. destruct (turn sequences result) as [| |sequences1 result1] eqn:Ht.
  - done.
  - intros [= <-]. split; [done|]. exists sequences, result.
    split; [apply reaches_here|].
    unfold turn in Ht. destruct (purge sequences) as [|s0 l0] eqn:Hp; [done|].
    split; [done|].
    by destruct (find_candidate (s0 :: l0) (s0 :: l0)).
  - intros (-> & sequences' & result' & Hr & ?)%IH. split; [done|].
    exists sequences', result'. split; [|done].
    by eapply reaches_turn.
Qed.

End c3_merge_results.

Section c3_merge_properties.
Import C3 C3Spec C3More.

Lemma rejected_elem c sequences :
  rejected c sequences = true ↔ ∃ s2, s2 ∈ sequences ∧ c ∈ tail s2.
Proof.
  unfold rejected. rewrite existsb_exists. split.
  - intros (s2 & ?%list_elem_of_In & ?%bool_decide_eq_true_1). by exists s2.
  - intros (s2 & ? & ?). exists s2.
    split; [by apply list_elem_of_In|by apply bool_decide_eq_true_2].
Qed.

Lemma find_candidate_none_inv sequences rest s c :
  find_candidate sequences rest = None →
  s ∈ rest → head s = Some c → rejected c sequences = true.
Proof.
  induction rest as [|s1 rest IH]; [by intros _ ?%elem_of_nil|]. simpl.
  intros Hf [<-|Hin]%elem_of_cons Hhead.
  - destruct s as [|x s]; simplify_eq/=.
    by destruct (rejected c sequences).
  - apply IH; [|done..]. destruct s1 as [|x s1]; [done|].
    by destruct (rejected x sequences).
Qed.

(** X1.  [_c3_merge] comes to an end on every input: it returns a list or
    raises the error of an inconsistent hierarchy, and nothing else. *)
Theorem X1_c3_merge_returns_or_raises (sequences : list (list Cls)) :
  (∃ result, _c3_merge sequences = Ok result) ∨
  _c3_merge sequences = Raise InconsistentHierarchy.
Proof.
  destruct (_c3_merge sequences) as [result|e|] eqn:Hm.
  - left. by exists result.
  - right. by apply loop_raise in Hm as [-> _].
  - by apply c3_merge_terminates in Hm.
Qed.

(** X2.  A list that [_c3_merge] returns has no element twice, and its
    elements are those of the sequences it was given. *)
Theorem X2_c3_merge_elements (sequences : list (list Cls)) (result : list Cls) :
  _c3_merge sequences = Ok result →
  NoDup result ∧ ∀ x, x ∈ result ↔ ∃ s, s ∈ sequences ∧ x ∈ s.
Proof. intros (rest & -> & ? & ? & _)%loop_ok. done. Qed.

Lemma X2_c3_merge_elements_witness :
  let sequences := [["Dog"]; ["Animal"; "object"]; ["Animal"]] in
  _c3_merge sequences = Ok ["Dog"; "Animal"; "object"] ∧
  NoDup ["Dog"; "Animal"; "object"] ∧
  ("object" ∈ ["Dog"; "Animal"; "object"] ↔
   ∃ s, s ∈ sequences ∧ "object" ∈ s).
Proof.
  intros sequences.
  assert (_c3_merge sequences = Ok ["Dog"; "Animal"; "object"]) as Hm
    by (vm_compute; reflexivity).
  destruct (X2_c3_merge_elements sequences _ Hm) as [Hnd Hmem].
  split_and!; [done|exact Hnd|exact (Hmem "object")].
Defined.

(** X3.  A list that [_c3_merge] returns keeps the order of every
    sequence it was given: each of them is what is left of the result
    when some elements are taken out. *)
Theorem X3_c3_merge_keeps_order
    (sequences : list (list Cls)) (result s : list Cls) :
  _c3_merge sequences = Ok result →
  s ∈ sequences →
  s `sublist_of` result.
Proof. intros (rest & -> & _ & _ & Hsub)%loop_ok Hs. by apply Hsub. Qed.

Lemma X3_c3_merge_keeps_order_witness :
  let sequences := [["Dog"]; ["Animal"; "object"]; ["Animal"]] in
  _c3_merge sequences = Ok ["Dog"; "Animal"; "object"] ∧
  ["Animal"; "object"] ∈ sequences ∧
  ["Animal"; "object"] `sublist_of` ["Dog"; "Animal"; "object"].
Proof.
  intros sequences.
  assert (_c3_merge sequences = Ok ["Dog"; "Animal"; "object"]) as Hm
    by (vm_compute; reflexivity).
  assert (["Animal"; "object"] ∈ sequences) as Hs.
  { apply (bool_decide_unpack _). vm_compute. reflexivity. }
  split_and!; [done..|].
  exact (X3_c3_merge_keeps_order sequences _ _ Hm Hs).
Defined.

(** X4.  [_c3_merge] raises exactly when its loop comes to sequences of
    which some are not empty and each head occurs in the tail of one of
    them (its own tail counts). *)
Theorem X4_c3_merge_raises_iff_stuck (sequences : list (list Cls)) :
  _c3_merge sequences = Raise InconsistentHierarchy ↔
  ∃ sequences' result',
    reaches (sequences, []) (sequences', result') ∧
    purge sequences' ≠ [] ∧
    ∀ s c, s ∈ purge sequences' → head s = Some c →
           ∃ s2, s2 ∈ purge sequences' ∧ c ∈ tail s2.
Proof.
  split.
  - intros (_ & sequences' & result' & Hr & Hne & Hnone)%loop_raise.
    exists sequences', result'. split_and!; [done..|].
    intros s c Hs Hhead. apply rejected_elem.
    by eapply find_candidate_none_inv.
  - intros (sequences' & result' & Hr & Hne & Hall). unfold _c3_merge.
    rewrite (reaches_loop _ _ Hr _ (S (total sequences'))); simpl; [|lia..].
    unfold turn. destruct (purge sequences') as [|s0 l0] eqn:Hp; [done|].
    rewrite find_candidate_none; [done|].
    intros s c Hs Hhead. apply rejected_elem. by eapply Hall.
Qed.

(** X5.  When the first sequence is [[c]] and [c] occurs in no other
    sequence, a list that [_c3_merge] returns begins with [c]. *)
Theorem X5_c3_merge_head_first
    (c : Cls) (sequences : list (list Cls)) (result : list Cls) :
  _c3_merge ([c] :: sequences) = Ok result →
  (∀ s, s ∈ sequences → c ∉ s) →
  head result = Some c.
Proof.
  unfold _c3_merge. intros Hm Hc.
  assert (purge ([c] :: sequences) = [c] :: purge sequences) as Hp.
  { unfold purge. by rewrite filter_cons_True. }
  assert (rejected c ([c] :: purge sequences) = false) as Hrej.
  { destruct (rejected c ([c] :: purge sequences)) eqn:Hr; [|done].
    apply rejected_elem in Hr as (s2 & [->|[_ Hs2]%elem_of_purge]%elem_of_cons
                                        & Hin).
    - by apply elem_of_nil in Hin.
    - destruct (Hc s2 Hs2). destruct s2; [done|by right]. }
  assert (turn ([c] :: sequences) [] =
          Again (remove_candidate c ([c] :: purge sequences)) [c]) as Ht.
  { unfold turn. rewrite Hp. cbn [find_candidate]. by rewrite Hrej. }
  cbn [loop] in Hm. rewrite Ht in Hm.
  by apply loop_ok in Hm as (rest & -> & _).
Qed.

Lemma X5_c3_merge_head_first_witness :
  let sequences := [["Animal"; "object"]; ["Animal"]] in
  _c3_merge (["Dog"] :: sequences) = Ok ["Dog"; "Animal"; "object"] ∧
  (∀ s, s ∈ sequences → "Dog" ∉ s) ∧
  head ["Dog"; "Animal"; "object"] = Some "Dog".
Proof.
  intros sequences.
  assert (_c3_merge (["Dog"] :: sequences) = Ok ["Dog"; "Animal"; "object"])
    as Hm by (vm_compute; reflexivity).
  assert (∀ s, s ∈ sequences → "Dog" ∉ s) as Hc.
  { intros s Hs. apply (bool_decide_unpack _).
    apply elem_of_cons in Hs as [->|Hs]; [vm_compute; reflexivity|].
    apply list_elem_of_singleton in Hs as ->. vm_compute. reflexivity. }
  split_and!; [done..|].
  exact (X5_c3_merge_head_first "Dog" sequences _ Hm Hc).
Defined.

End c3_merge_properties.

(** ** The linearizer *)

Section linearizer_properties.
Context (env : ClassEnv).

Lemma mapM_Ok {A B} (f : A → Res B) l k :
  mapM f l = Ok k → Forall2 (λ x y, f x = Ok y) l k.
Proof.
  revert k. induction l as [|x l IH]; intros k; simpl.
  - intros [= <-]. constructor.
  - destruct (f x) as [y| |] eqn:Hx; simpl; [|done..].
    destruct (mapM f l) as [k'| |]; simpl; [|done..].
    intros [= <-]. constructor; [done|by apply IH].
Qed.


Lemma compose_mro_composed fuel cls types :
  _compose_mro env fuel cls types =
  _c3_mro env fuel cls (composed_abcs env cls types).
Proof. done. Qed.

(** The sequences that [_c3_mro] merges, once its bases are linearized. *)
Lemma c3_mro_Ok fuel cls abcs res :
  _c3_mro env (S fuel) cls abcs = Ok res →
  ∃ explicit_c3_mros abstract_c3_mros other_c3_mros,
    Forall2 (λ base m,
               _c3_mro env fuel base (remaining_abcs env cls abcs) = Ok m)
            (explicit_bases env cls) explicit_c3_mros ∧
    Forall2 (λ base m,
               _c3_mro env fuel base (remaining_abcs env cls abcs) = Ok m)
            (abstract_bases env cls abcs) abstract_c3_mros ∧
    Forall2 (λ base m,
               _c3_mro env fuel base (remaining_abcs env cls abcs) = Ok m)
            (other_bases env cls) other_c3_mros ∧
    _c3_merge
      ([[cls]] ++
       explicit_c3_mros ++ abstract_c3_mros ++ other_c3_mros ++
       [explicit_bases env cls] ++ [abstract_bases env cls abcs] ++
       [other_bases env cls]) = Ok res.
Proof.
  simpl.
  destruct (mapM _ (explicit_bases env cls)) as [m1| |] eqn:H1; simpl; [|done..].
  destruct (mapM _ (abstract_bases env cls abcs)) as [m2| |] eqn:H2;
    simpl; [|done..].
  destruct (mapM _ (other_bases env cls)) as [m3| |] eqn:H3; simpl; [|done..].
  intros Hm. exists m1, m2, m3. by split_and!; [apply mapM_Ok..|].
Qed.

Lemma bases_split cls :
  bases env cls = explicit_bases env cls ++ other_bases env cls.
Proof. unfold explicit_bases, other_bases. by rewrite take_drop. Qed.

Lemma Forall2_result {A B} (f : A → Res B) l k x y :
  Forall2 (λ x y, f x = Ok y) l k → x ∈ l → f x = Ok y → y ∈ k.
Proof.
  induction 1 as [|x' y' l k Hxy _ IH]; [by intros ?%elem_of_nil|].
  intros [->|Hin]%elem_of_cons Hy; apply elem_of_cons.
  - left. congruence.
  - right. by apply IH.
Qed.

Lemma Forall2_source {A B} (f : A → Res B) l k y :
  Forall2 (λ x y, f x = Ok y) l k → y ∈ k → ∃ x, x ∈ l ∧ f x = Ok y.
Proof.
  induction 1 as [|x' y' l k Hxy _ IH]; [by intros ?%elem_of_nil|].
  intros [->|Hin]%elem_of_cons.
  - exists x'. split; [by left|done].
  - destruct (IH Hin) as (x & ? & ?). exists x. split; [by right|done].
Qed.

(** X6.  An order that [_c3_mro] returns holds the class, holds no class
    twice, keeps the order of the direct bases (those before the boundary,
    the newly satisfied abstract ones, those after it), and keeps the
    order in which each of these bases was linearized. *)
Theorem X6_c3_mro_extends_its_bases
    (fuel : nat) (cls : Cls) (abcs res : list Cls) :
  _c3_mro env (S fuel) cls abcs = Ok res →
  cls ∈ res ∧ NoDup res ∧
  explicit_bases env cls `sublist_of` res ∧
  abstract_bases env cls abcs `sublist_of` res ∧
  other_bases env cls `sublist_of` res ∧
  ∀ base m,
    base ∈ bases env cls ∨ base ∈ abstract_bases env cls abcs →
    _c3_mro env fuel base (remaining_abcs env cls abcs) = Ok m →
    m `sublist_of` res.
Proof.
  intros (m1 & m2 & m3 & H1 & H2 & H3 & Hm)%c3_mro_Ok.
  pose proof (λ s, X3_c3_merge_keeps_order _ _ s Hm) as Hsub.
  destruct (X2_c3_merge_elements _ _ Hm) as [Hnd Hmem].
  split_and!.
  - apply Hmem. exists [cls]. split; [by left|by left].
  - done.
  - apply Hsub. rewrite !elem_of_app, !elem_of_cons; tauto.
  - apply Hsub. rewrite !elem_of_app, !elem_of_cons; tauto.
  - apply Hsub. rewrite !elem_of_app, !elem_of_cons; tauto.
  - intros base m Hbase Hbm. apply Hsub.
    rewrite bases_split, elem_of_app in Hbase.
    destruct Hbase as [[Hb|Hb]|Hb].
    + pose proof (Forall2_result _ _ _ _ _ H1 Hb Hbm). rewrite !elem_of_app, !elem_of_cons; tauto.
    + pose proof (Forall2_result _ _ _ _ _ H3 Hb Hbm). rewrite !elem_of_app, !elem_of_cons; tauto.
    + pose proof (Forall2_result _ _ _ _ _ H2 Hb Hbm). rewrite !elem_of_app, !elem_of_cons; tauto.
Qed.

End linearizer_properties.

Lemma X6_c3_mro_extends_its_bases_witness :
  _c3_mro Zoo.zoo 3 "Dog" [] = Ok ["Dog"; "Animal"; "object"] ∧
  "Animal" ∈ bases Zoo.zoo "Dog" ∧
  _c3_mro Zoo.zoo 2 "Animal" (remaining_abcs Zoo.zoo "Dog" [])
    = Ok ["Animal"; "object"] ∧
  ["Animal"; "object"] `sublist_of` ["Dog"; "Animal"; "object"] ∧
  NoDup ["Dog"; "Animal"; "object"].
Proof.
  assert (_c3_mro Zoo.zoo 3 "Dog" [] = Ok ["Dog"; "Animal"; "object"]) as Hm
    by (vm_compute; reflexivity).
  assert ("Animal" ∈ bases Zoo.zoo "Dog") as Hb.
  { apply (bool_decide_unpack _). vm_compute. reflexivity. }
  assert (_c3_mro Zoo.zoo 2 "Animal" (remaining_abcs Zoo.zoo "Dog" [])
          = Ok ["Animal"; "object"]) as Hbm by (vm_compute; reflexivity).
  destruct (X6_c3_mro_extends_its_bases Zoo.zoo 2 "Dog" [] _ Hm)
    as (_ & Hnd & _ & _ & _ & Hsub).
  split_and!; [done..| |exact Hnd].
  exact (Hsub "Animal" _ (or_introl Hb) Hbm).
Defined.

Section linearizer_reach.
Context (env : ClassEnv).

Lemma list_remove_elem x l y : y ∈ list_remove x l → y ∈ l.
Proof.
  induction l as [|z l IH]; simpl; [done|].
  case_bool_decide; [by right|].
  intros [->|?]%elem_of_cons; [by left|right; by apply IH].
Qed.

Lemma remaining_abcs_elem cls abcs y :
  y ∈ remaining_abcs env cls abcs → y ∈ abcs.
Proof.
  unfold remaining_abcs. generalize (abstract_bases env cls abcs).
  intros bs. revert abcs. induction bs as [|b bs IH]; intros abcs; simpl; [done|].
  intros ?%IH. by eapply list_remove_elem.
Qed.

Lemma abstract_bases_elem cls abcs y :
  y ∈ abstract_bases env cls abcs → y ∈ abcs.
Proof. unfold abstract_bases. by intros [_ ?]%list_elem_of_filter. Qed.

Lemma explicit_bases_elem cls y :
  y ∈ explicit_bases env cls → y ∈ bases env cls.
Proof. rewrite bases_split, elem_of_app. by left. Qed.

Lemma other_bases_elem cls y :
  y ∈ other_bases env cls → y ∈ bases env cls.
Proof. rewrite bases_split, elem_of_app. by right. Qed.

Lemma c3_mro_ancestors fuel : ∀ cls abcs res x,
  _c3_mro env fuel cls abcs = Ok res → x ∈ res →
  ancestor env cls x ∨ ∃ a, a ∈ abcs ∧ ancestor env a x.
Proof.
  induction fuel as [|fuel IH]; intros cls abcs res x; [done|].
  intros (m1 & m2 & m3 & H1 & H2 & H3 & Hm)%c3_mro_Ok Hx.
  apply (X2_c3_merge_elements _ _ Hm) in Hx as (s & Hs & Hx).
  assert (∀ base m, _c3_mro env fuel base (remaining_abcs env cls abcs) = Ok m →
            x ∈ m → base ∈ bases env cls →
            ancestor env cls x ∨ ∃ a, a ∈ abcs ∧ ancestor env a x) as Hbase.
  { intros base m Hbm Hxm Hb.
    destruct (IH _ _ _ _ Hbm Hxm) as [Ha|(a & Ha & Hax)].
    - left. by eapply ancestor_base.
    - right. exists a. split; [by eapply remaining_abcs_elem|done]. }
  rewrite !elem_of_app, !elem_of_cons, !elem_of_nil in Hs.
  destruct Hs as [[->|[]]|[Hs|[Hs|[Hs|[[->|[]]|[[->|[]]|[->|[]]]]]]]].
  - apply list_elem_of_singleton in Hx as ->. left. constructor.
  - destruct (Forall2_source _ _ _ _ H1 Hs) as (base & Hb & Hbm).
    eapply Hbase; [done..|]. by apply explicit_bases_elem.
  - destruct (Forall2_source _ _ _ _ H2 Hs) as (base & Hb & Hbm).
    apply abstract_bases_elem in Hb.
    destruct (IH _ _ _ _ Hbm Hx) as [Ha|(a & Ha & Hax)]; right.
    + by exists base.
    + exists a. split; [by eapply remaining_abcs_elem|done].
  - destruct (Forall2_source _ _ _ _ H3 Hs) as (base & Hb & Hbm).
    eapply Hbase; [done..|]. by apply other_bases_elem.
  - left. eapply ancestor_base; [by apply explicit_bases_elem|constructor].
  - right. exists x. split; [by eapply abstract_bases_elem|constructor].
  - left. eapply ancestor_base; [by apply other_bases_elem|constructor].
Qed.

Lemma elem_of_insert_by_len sub sorted y :
  y ∈ insert_by_len sub sorted → y = sub ∨ y ∈ sorted.
Proof.
  induction sorted as [|s sorted IH]; simpl.
  - intros ?%list_elem_of_singleton. by left.
  - case_decide.
    + intros [->|[->|?]%IH]%elem_of_cons; [right; by left|by left|].
      right. by right.
    + intros [->|?]%elem_of_cons; [by left|by right].
Qed.

Lemma elem_of_sort_by_len_reverse found y :
  y ∈ sort_by_len_reverse found → y ∈ found.
Proof.
  unfold sort_by_len_reverse.
  assert (∀ acc, y ∈ foldl (λ sorted sub, insert_by_len sub sorted) acc found →
                 y ∈ acc ∨ y ∈ found) as Hgen.
  { induction found as [|sub found IH]; intros acc; simpl; [by left|].
    intros [[->|?]%elem_of_insert_by_len|?]%IH.
    - right. by left.
    - by left.
    - right. by right. }
  intros [?%elem_of_nil|?]%Hgen; done.
Qed.

Lemma compose_step_elem cls type_set acc typ x :
  typ ∈ type_set → (∀ y, y ∈ acc → y ∈ type_set) →
  x ∈ compose_step env cls type_set acc typ → x ∈ type_set.
Proof.
  intros Htyp Hacc. unfold compose_step.
  match goal with |- context [sort_by_len_reverse ?f] => set (found := f) end.
  assert (∀ sub, sub ∈ sort_by_len_reverse found →
                 ∀ y, y ∈ sub → y ∈ type_set) as Hfound.
  { intros sub Hsub%elem_of_sort_by_len_reverse y Hy.
    apply list_elem_of_fmap in Hsub as (sub' & -> & _).
    by apply list_elem_of_filter in Hy as [? _]. }
  assert (∀ subs acc,
            (∀ sub, sub ∈ subs → ∀ y, y ∈ sub → y ∈ type_set) →
            (∀ y, y ∈ acc → y ∈ type_set) →
            x ∈ foldl (λ acc sub,
                         foldl (λ acc subcls,
                                  if bool_decide (subcls ∈ acc) then acc
                                  else acc ++ [subcls]) acc sub) acc subs →
            x ∈ type_set) as Hfold.
  { clear. induction subs as [|sub subs IH]; intros acc Hsubs Hacc; simpl.
    - apply Hacc.
    - apply IH; [intros ????; eapply Hsubs; [by right|done]|].
      assert (∀ y, y ∈ sub → y ∈ type_set) as Hsub
        by (intros ??; eapply Hsubs; [by left|done]).
      clear -Hsub Hacc. revert acc Hacc.
      induction sub as [|subcls sub IH]; intros acc Hacc; simpl; [done|].
      apply IH; [intros ??; apply Hsub; by right|].
      case_bool_decide; [done|].
      intros y [?|Hy%list_elem_of_singleton]%elem_of_app; [by apply Hacc|].
      subst y. apply Hsub. by left. }
  destruct found as [|f0 found'] eqn:Hf.
  - intros [?|Hx%list_elem_of_singleton]%elem_of_app; [by apply Hacc|].
    by subst x.
  - by apply Hfold.
Qed.

Lemma composed_abcs_related cls types t :
  t ∈ composed_abcs env cls types →
  OClass t ∈ types ∧ (t ∉ mro env cls) ∧ issubclass env cls t = true.
Proof.
  unfold composed_abcs.
  set (types1 := omap (is_related env cls) types).
  set (types2 := filter (λ n, is_strict_base env types1 n = false) types1).
  assert (∀ l acc, (∀ y, y ∈ l → y ∈ types2) → (∀ y, y ∈ acc → y ∈ types2) →
            t ∈ foldl (compose_step env cls types2) acc l → t ∈ types2) as Hfold.
  { induction l as [|typ l IH]; intros acc Hl Hacc; simpl; [apply Hacc|].
    apply IH; [intros ??; apply Hl; by right|].
    intros y. apply compose_step_elem; [apply Hl; by left|done]. }
  intros Ht. apply Hfold in Ht; [|done|by intros ? ?%elem_of_nil].
  apply list_elem_of_filter in Ht as [_ Ht].
  apply list_elem_of_omap in Ht as (o & Ho & Hrel).
  destruct o as [t'| |]; simpl in Hrel; [|done..].
  destruct (bool_decide (t' ∉ mro env cls) && issubclass env cls t')%bool
    eqn:Hb; [|done].
  injection Hrel as ->. apply andb_true_iff in Hb as [?%bool_decide_eq_true_1 ?].
  done.
Qed.

(** X7.  Every class of an order that [_compose_mro] returns is reached
    through [__bases__] from [cls], or from a class of [types] that [cls]
    is a subclass of and that is not in [cls.__mro__]: a type that is
    not related to [cls] brings nothing into the order. *)
Theorem X7_compose_mro_holds_ancestors_only
    (fuel : nat) (cls : Cls) (types : list Obj) (res : list Cls) (x : Cls) :
  _compose_mro env fuel cls types = Ok res →
  x ∈ res →
  ancestor env cls x ∨
  ∃ t, OClass t ∈ types ∧ (t ∉ mro env cls) ∧ issubclass env cls t = true ∧
       ancestor env t x.
Proof.
  rewrite compose_mro_composed. intros Hm Hx.
  destruct (c3_mro_ancestors _ _ _ _ _ Hm Hx) as [?|(a & Ha & Hax)]; [by left|].
  right. exists a. by apply composed_abcs_related in Ha as (? & ? & ?).
Qed.

End linearizer_reach.

Lemma X7_compose_mro_holds_ancestors_only_witness :
  let types := registered_types (registry Ponds.registered) in
  _compose_mro Ponds.ponds 5 "B1" types = Ok ["B1"; "R"; "K1"; "S"; "object"] ∧
  "S" ∈ ["B1"; "R"; "K1"; "S"; "object"] ∧
  (ancestor Ponds.ponds "B1" "S" ∨
   ∃ t, OClass t ∈ types ∧ (t ∉ mro Ponds.ponds "B1") ∧
        issubclass Ponds.ponds "B1" t = true ∧ ancestor Ponds.ponds t "S").
Proof.
  intros types.
  assert (_compose_mro Ponds.ponds 5 "B1" types
          = Ok ["B1"; "R"; "K1"; "S"; "object"]) as Hm
    by (vm_compute; reflexivity).
  assert ("S" ∈ ["B1"; "R"; "K1"; "S"; "object"]) as Hx.
  { apply (bool_decide_unpack _). vm_compute. reflexivity. }
  split_and!; [done..|].
  exact (X7_compose_mro_holds_ancestors_only Ponds.ponds 5 "B1" types _ "S" Hm Hx).
Defined.

Section linearizer_terminates.
Context (env : ClassEnv).










End linearizer_terminates.

Lemma zoo_rank_bases c b : b ∈ bases Zoo.zoo c → zoo_rank b < zoo_rank c.
Proof.
  simpl. unfold Zoo.zoo_bases, zoo_rank.
  destruct (decide (c = "object")) as [->|Hc]; [by intros ?%elem_of_nil|].
  destruct (decide (c = "Dog")) as [->|Hd];
    intros ->%list_elem_of_singleton; simpl; lia.
Qed.



(** ** The trie, further *)

Section trie_properties.
Implicit Types (env : ClassEnv).
Implicit Types (n current child : Node) (part : Obj) (parts types : list Obj).
Implicit Types (path p : list nat).

Lemma Node_get_list_singleton n part :
  Node_get_list n [part] =
  snd <$> list_find (λ c, Node_eq c part = true) (children n).
Proof.
  unfold Node_get_list. simpl. induction (children n) as [|c cs IH]; [done|].
  rewrite filter_cons. simpl. rewrite orb_false_r.
  destruct (decide (Node_eq c part = true)) as [Hc|Hc].
  - done.
  - rewrite IH. by destruct (list_find _ cs) as [[i c']|].
Qed.

Lemma getitem_from_route n parts path :
  route n parts = Some path →
  ∃ n', node_at n path = Some n' ∧
        getitem_from n ((λ c, [c]) <$> parts) = key_of_seq (seq n').
Proof.
  revert n path. induction parts as [|part parts IH]; intros n path.
  - intros [= <-]. by exists n.
  - cbn [route fmap list_fmap getitem_from]. rewrite Node_get_list_singleton.
    destruct (list_find _ _) as [[i child]|] eqn:Hf; [|done].
    destruct (route child parts) as [path'|] eqn:Hr; [|done].
    intros [= <-]. destruct (IH _ _ Hr) as (n' & Hat & Hg).
    exists n'. simpl. by rewrite (list_find_lookup _ _ _ _ Hf).
Qed.

(** After the insertion of a quiet signature the walk of the signature
    leads to the node that keeps it. *)
Lemma add_type_from_routes env n parts types n' :
  quiet env parts →
  add_type_from env n parts types = Ok n' →
  ∃ path, route n' parts = Some path ∧
          seq <$> node_at n' path = Some (Some types).
Proof.
  revert n n'. induction parts as [|part parts IH]; intros n n' Hp.
  - intros [= <-]. by exists [].
  - apply Forall_cons in Hp as [Hpart Hparts].
    intros Ha%add_type_from_quiet_inv; [|done]. revert Ha.
    destruct (list_find (λ c, Node_eq c part = true) (children n))
      as [[i child]|] eqn:Hf.
    + intros (child' & Ha & ->).
      pose proof (add_type_from_value _ _ _ _ _ Ha) as Hv.
      destruct (IH _ _ Hparts Ha) as (path & Hr & Hs). exists (i :: path).
      pose proof (list_find_lookup _ _ _ _ Hf) as Hi. split.
      * cbn [route children].
        rewrite (list_find_insert_value _ _ child) by done.
        rewrite Hf. cbn [fmap option_fmap option_map].
        rewrite decide_True by done. by rewrite Hr.
      * cbn [node_at children].
        by rewrite list_lookup_insert_eq by (by eapply lookup_lt_Some).
    + intros (new & Ha & ->).
      pose proof (add_type_from_value _ _ _ _ _ Ha) as Hv.
      destruct (IH _ _ Hparts Ha) as (path & Hr & Hs).
      exists (length (children n) :: path). split.
      * cbn [route add_child children].
        rewrite list_find_app_r by done. cbn [list_find].
        rewrite decide_True
          by (by rewrite (Node_eq_value _ (Node_new (Some part))) by done;
              apply Node_eq_new).
        simpl. by rewrite Hr.
      * cbn [node_at add_child children].
        rewrite lookup_app_r by lia. by rewrite Nat.sub_diag.
Qed.

(** X9.  Insertion and lookup: right after the insertion of a quiet
    signature has returned, the lookup that offers, at each position, the
    element of the signature as the only candidate returns the signature;
    and the insertion of a signature without iterable element does
    return. *)
Theorem X9_lookup_after_insert
    (env : ClassEnv) (t : TypeTree) (types : list Obj) :
  quiet env types →
  (∀ t', add_type env t types = Ok t' →
         getitem t' ((λ c, [c]) <$> types) = KTuple types) ∧
  (not_iterable env types → ∃ t', add_type env t types = Ok t').
Proof.
  intros Hp. split.
  - intros t' Ha. unfold getitem.
    destruct (add_type_from_routes _ _ _ _ _ Hp Ha) as (path & Hr & Hs).
    destruct (getitem_from_route _ _ _ Hr) as (n' & Hat & ->).
    rewrite Hat in Hs. simpl in Hs. injection Hs as Hs. by rewrite Hs.
  - apply add_type_from_returns.
Qed.

Lemma X9_lookup_after_insert_witness :
  ∃ t t',
    build_tree Zoo.zoo TypeTree_new [[Zoo.Dog; Zoo.wildcard]] = Ok t ∧
    let types := [Zoo.Cat; Zoo.Fish] in
    quiet Zoo.zoo types ∧
    add_type Zoo.zoo t types = Ok t' ∧
    getitem t' [[Zoo.Cat]; [Zoo.Fish]] = KTuple types.
Proof.
  eexists _, _. split; [reflexivity|]. intros types.
  assert (quiet Zoo.zoo types) as Hp by apply zoo_quiet.
  match goal with
  | |- _ ∧ add_type _ ?t _ = _ ∧ _ =>
      split; [done|]; split; [reflexivity|];
      apply (proj1 (X9_lookup_after_insert Zoo.zoo t types Hp));
      reflexivity
  end.
Defined.

Lemma sum_list_insert_le (f : Node → nat) (l : list Node) i x x' k :
  l !! i = Some x → f x ≤ f x' ≤ f x + k →
  sum_list (map f l) ≤ sum_list (map f (<[i := x']> l))
                     ≤ sum_list (map f l) + k.
Proof.
  intros Hi Hf. revert i Hi.
  induction l as [|y l IH]; intros [|i] Hi; simplify_eq/=; [lia|].
  specialize (IH i Hi). lia.
Qed.

Lemma sum_list_map_app (f : Node → nat) (l1 l2 : list Node) :
  sum_list (map f (l1 ++ l2)) = sum_list (map f l1) + sum_list (map f l2).
Proof. induction l1 as [|y l1 IH]; simpl; lia. Qed.

Lemma add_type_from_count_bounds env n parts types n' :
  add_type_from env n parts types = Ok n' →
  node_count n ≤ node_count n' ≤ node_count n + length parts.
Proof.
  revert n n'. induction parts as [|part parts IH]; intros n n'.
  - intros [= <-]. rewrite (node_count_eq (set_seq _ _)), (node_count_eq n).
    cbn [set_seq children length]. lia.
  - intros [(i & child & child' & _ & _ & Hi & Ha & ->)
           |(new & _ & Ha & ->)]%add_type_from_cons_inv.
    + rewrite (node_count_eq (mkNode _ _ _)), (node_count_eq n).
      cbn [children length].
      pose proof (sum_list_insert_le node_count (children n) i child
        child' (length parts) Hi (IH _ _ Ha)). lia.
    + specialize (IH _ _ Ha).
      rewrite (node_count_eq (add_child _ _)), (node_count_eq n).
      cbn [add_child children length]. rewrite sum_list_map_app.
      change (node_count (Node_new (Some part))) with 1 in IH.
      cbn [map sum_list]. unfold id. lia.
Qed.

Lemma add_type_from_keeps env n parts types n' p n0 :
  add_type_from env n parts types = Ok n' →
  node_at n p = Some n0 →
  ∃ n1, node_at n' p = Some n1 ∧
        value n1 = value n0 ∧
        (seq n1 = seq n0 ∨ seq n1 = Some types).
Proof.
  revert n n' p. induction parts as [|part parts IH]; intros n n' p.
  - intros [= <-]. destruct p as [|j p]; simpl.
    + intros [= <-]. eexists. split; [done|]. simpl. split; [done|by right].
    + intros ?. exists n0. split; [done|]. split; [done|by left].
  - intros [(i & child & child' & _ & _ & Hi & Ha & ->)
           |(new & _ & Ha & ->)]%add_type_from_cons_inv.
    + destruct p as [|j p]; simpl.
      { intros [= <-]. eexists. split; [done|]. simpl. split; [done|by left]. }
      destruct (decide (j = i)) as [->|Hne].
      * rewrite list_lookup_insert_eq by (by eapply lookup_lt_Some).
        rewrite Hi. by apply IH.
      * rewrite list_lookup_insert_ne by done.
        intros ?. exists n0. split; [done|]. split; [done|by left].
    + destruct p as [|j p]; simpl.
      { intros [= <-]. eexists. split; [done|]. simpl. split; [done|by left]. }
      destruct (children n !! j) as [c|] eqn:Hj; [|done].
      rewrite (lookup_app_l_Some _ _ _ _ Hj).
      intros ?. exists n0. split; [done|]. split; [done|by left].
Qed.

(** X10.  An insertion that returns keeps every node of the trie where it
    is, with its value, and with its signature unless it puts the inserted
    one there; it adds at most one node for each element of the signature.
    (An insertion that raises has written nothing.) *)
Theorem X10_insertion_keeps_the_nodes
    (env : ClassEnv) (t t' : TypeTree) (types : list Obj)
    (p : list nat) (n : Node) :
  add_type env t types = Ok t' →
  node_at t p = Some n →
  (∃ n', node_at t' p = Some n' ∧
         value n' = value n ∧
         (seq n' = seq n ∨ seq n' = Some types)) ∧
  node_count t ≤ node_count t' ≤ node_count t + length types.
Proof.
  intros Ha Hat. split.
  - by eapply add_type_from_keeps.
  - by eapply add_type_from_count_bounds.
Qed.

Lemma X10_insertion_keeps_the_nodes_witness :
  ∃ t t',
    build_tree Zoo.zoo TypeTree_new [[Zoo.Dog; Zoo.Cat]] = Ok t ∧
    let types := [Zoo.Dog; Zoo.wildcard] in
    add_type Zoo.zoo t types = Ok t' ∧
    node_at t [0; 0]
      = Some (mkNode (Some Zoo.Cat) [] (Some [Zoo.Dog; Zoo.Cat])) ∧
    (∃ n', node_at t' [0; 0] = Some n' ∧
           value n' = Some Zoo.Cat ∧
           (seq n' = Some [Zoo.Dog; Zoo.Cat] ∨ seq n' = Some types)) ∧
    node_count t ≤ node_count t' ≤ node_count t + 2.
Proof.
  eexists _, _. split; [reflexivity|]. intros types.
  split; [reflexivity|].
  match goal with
  | |- node_at ?t _ = _ ∧ (∃ n', node_at ?t' _ = _ ∧ _) ∧ _ =>
      assert (add_type Zoo.zoo t types = Ok t') as Ha by reflexivity;
      assert (node_at t [0; 0]
              = Some (mkNode (Some Zoo.Cat) [] (Some [Zoo.Dog; Zoo.Cat])))
        as Hat by reflexivity;
      split; [done|];
      exact (X10_insertion_keeps_the_nodes Zoo.zoo t t' types [0; 0] _ Ha Hat)
  end.
Defined.

End trie_properties.

(** *** The children of a node *)

Section trie_siblings.
Implicit Types (env : ClassEnv).
Implicit Types (n current child : Node) (part : Obj) (parts types : list Obj).

Lemma sorted_below_child n i child :
  children n !! i = Some child → sorted_below n → sorted_below child.
Proof.
  intros Hi Hn p n' Hat. apply (Hn (i :: p)). simpl. by rewrite Hi.
Qed.

Lemma sorted_below_intro n :
  siblings_ok (children n) →
  (∀ i child, children n !! i = Some child → sorted_below child) →
  sorted_below n.
Proof.
  intros Hn Hc [|i p] n'; simpl.
  - by intros [= <-].
  - destruct (children n !! i) as [child|] eqn:Hi; [|done].
    by apply (Hc i child).
Qed.

Lemma Node_eq_false n part :
  Node_eq n part = false →
  value n ≠ Some (OClass IGNORE_TYPE) ∧ part ≠ OClass IGNORE_TYPE ∧
  value n ≠ Some part.
Proof.
  unfold Node_eq. repeat case_bool_decide; intros ?; split_and!; congruence.
Qed.

Lemma siblings_ok_new_child cs new part :
  siblings_ok cs →
  list_find (λ c, Node_eq c part = true) cs = None →
  value new = Some part →
  siblings_ok (cs ++ [new]).
Proof.
  intros [Hnd Hw] Hf%list_find_None Hv. rewrite Forall_forall in Hf.
  assert (∀ c, c ∈ cs → Node_eq c part = false) as Hne.
  { intros c Hc. specialize (Hf c Hc). by destruct (Node_eq c part). }
  unfold siblings_ok. rewrite fmap_app. simpl. rewrite Hv. split.
  - apply NoDup_app. split_and!; [done| |apply NoDup_singleton].
    intros v (c & -> & Hc)%list_elem_of_fmap ?%list_elem_of_singleton.
    by destruct (Node_eq_false _ _ (Hne c Hc)) as (_ & _ & ?).
  - destruct cs as [|c cs]; [done|].
    assert (c ∈ c :: cs) as Hc by (by left).
    destruct (Node_eq_false _ _ (Hne c Hc)) as (_ & Hpart & _).
    intros [(c' & Hc' & Hin)%list_elem_of_fmap|Hin%list_elem_of_singleton]
             %elem_of_app.
    + by destruct (Node_eq_false _ _ (Hne c' Hin)) as (? & _ & _).
    + congruence.
Qed.

Lemma siblings_ok_insert cs i child child' :
  cs !! i = Some child → value child' = value child →
  siblings_ok cs → siblings_ok (<[i := child']> cs).
Proof.
  intros Hi Hv [Hnd Hw]. unfold siblings_ok.
  rewrite list_fmap_insert, Hv, length_insert.
  rewrite (list_insert_id (value <$> cs)); [done|].
  by rewrite list_lookup_fmap, Hi.
Qed.

Lemma sorted_below_add_type_from env parts : ∀ n types n',
  sorted_below n →
  add_type_from env n parts types = Ok n' → sorted_below n'.
Proof.
  induction parts as [|part parts IH]; intros n types n' Hn.
  - intros [= <-]. intros [|i p] n1; simpl.
    + intros [= <-]. apply (Hn [] n eq_refl).
    + apply (Hn (i :: p)).
  - intros [(i & child & child' & _ & _ & Hi & Ha & ->)
           |(new & Hc & Ha & ->)]%add_type_from_cons_inv.
    + apply sorted_below_intro; cbn [children].
      * eapply siblings_ok_insert; [done|by eapply add_type_from_value|].
        apply (Hn [] n eq_refl).
      * intros j c. destruct (decide (j = i)) as [->|Hne].
        -- rewrite list_lookup_insert_eq by (by eapply lookup_lt_Some).
           intros [= <-]. eapply IH; [|done]. by eapply sorted_below_child.
        -- rewrite list_lookup_insert_ne by done.
           intros Hj. by eapply sorted_below_child.
    + apply sorted_below_intro; cbn [add_child children].
      * eapply siblings_ok_new_child;
          [apply (Hn [] n eq_refl)|by apply Node_contains_false|].
        by rewrite (add_type_from_value _ _ _ _ _ Ha).
      * intros j c. destruct (decide (j < length (children n))) as [Hlt|Hge].
        -- rewrite lookup_app_l by done. intros Hj.
           by eapply sorted_below_child.
        -- rewrite lookup_app_r by lia.
           destruct (j - length (children n)) as [|k]; simpl; [|done].
           intros [= <-]. eapply IH; [|done].
           intros p n1 [-> ->]%node_at_new. split; [constructor|].
           by intros ?%elem_of_nil.
Qed.

(** X11.  In a trie made by insertions, of any signatures and under any
    class graphs, the children of every node carry different values, and
    a child with the wildcard marker is the only child of its node: a
    wildcard and a class are never siblings. *)
Theorem X11_built_trie_siblings (t : TypeTree) (p : list nat) (n : Node) :
  built any_signature t →
  node_at t p = Some n →
  NoDup (value <$> children n) ∧
  (Some (OClass IGNORE_TYPE) ∈ value <$> children n →
   length (children n) = 1).
Proof.
  intros Ht Hat.
  assert (sorted_below t) as Hsorted.
  { clear Hat. induction Ht as [|env t types t' _ IH _ Ha].
    - intros p' n' [-> ->]%node_at_new. split; [constructor|].
      by intros ?%elem_of_nil.
    - by eapply sorted_below_add_type_from. }
  apply (Hsorted p n Hat).
Qed.

Lemma X11_built_trie_siblings_witness :
  ∃ t,
    build_tree Zoo.zoo TypeTree_new
      [[Zoo.Dog; Zoo.wildcard]; [Zoo.Dog; Zoo.Cat]; [Zoo.Cat; Zoo.Bird]]
      = Ok t ∧
    built any_signature t ∧
    (∃ n, node_at t [0] = Some n ∧
          value <$> children n = [Some Zoo.wildcard] ∧
          NoDup (value <$> children n) ∧
          (Some (OClass IGNORE_TYPE) ∈ value <$> children n →
           length (children n) = 1)).
Proof.
  eexists. split; [reflexivity|].
  match goal with |- built _ ?t0 ∧ _ => set (t := t0) end.
  assert (built any_signature t) as Ht.
  { eapply (build_tree_built _ Zoo.zoo _
              [[Zoo.Dog; Zoo.wildcard]; [Zoo.Dog; Zoo.Cat];
               [Zoo.Cat; Zoo.Bird]]); [apply built_new| |reflexivity].
    by apply Forall_forall. }
  split; [done|].
  destruct (node_at t [0]) as [n|] eqn:Hat; [|by vm_compute in Hat].
  exists n. split; [done|]. split.
  - vm_compute in Hat. injection Hat as <-. reflexivity.
  - exact (X11_built_trie_siblings t [0] n Ht Hat).
Defined.

End trie_siblings.

(** ** The generic function, further *)

Section generic_function_properties.

Lemma register_cases env s func force :
  let cls := _get_args_type func in
  let r := register env s func force in
  (r = (s, Raise (DuplicateRegistration (func_name func) cls)) ∨
   r = (s, Raise (InvalidSignatureElement cls)))
  ∨
  (force = true ∨ KTuple cls ∉ dict_keys (registry s)) ∧
  match add_type env (types_cache s) cls with
  | Ok t' =>
      r.2 = Ok func ∧
      registry r.1 = dict_set (registry s) (KTuple cls) func ∧
      types_cache r.1 = t' ∧
      dispatch_cache r.1 = ∅ ∧
      funcname r.1 = funcname s ∧
      next_id r.1 = next_id s
  | Raise e =>
      r = (set_registry s (dict_set (registry s) (KTuple cls) func), Raise e)
  | OutOfFuel => False
  end.
Proof.
  intros cls r.
  destruct (negb force && bool_decide (KTuple cls ∈ dict_keys (registry s)))
    eqn:Hdup.
  { left. left. unfold r, register. fold cls. by rewrite Hdup. }
  destruct (existsb (λ c, negb (_is_valid_dispatch_type c)) cls) eqn:Hbad.
  { left. right. unfold r, register. fold cls. by rewrite Hdup, Hbad. }
  right.
  assert (force = true ∨ KTuple cls ∉ dict_keys (registry s)) as Hforce.
  { destruct force; [by left|right]. simpl in Hdup.
    by apply bool_decide_eq_false_1 in Hdup. }
  split; [done|]. apply (register_written env s func force Hforce).
  apply Forall_forall. intros c Hin.
  destruct (_is_valid_dispatch_type c) eqn:Hv; [done|].
  rewrite (existsb_not_valid_elem cls c) in Hbad by done. done.
Qed.

(** A registration leaves alone what it is not about: the other entries
    of the registry, the name. *)
Lemma register_registry env s func force :
  (registry (register env s func force).1 = registry s ∨
   (force = true ∨ KTuple (_get_args_type func) ∉ dict_keys (registry s)) ∧
   registry (register env s func force).1
   = dict_set (registry s) (KTuple (_get_args_type func)) func) ∧
  funcname (register env s func force).1 = funcname s.
Proof.
  destruct (register_cases env s func force) as [[Hr|Hr]|[Hforce Hr]];
    cbv zeta in Hr.
  - rewrite Hr. split; [by left|done].
  - rewrite Hr. split; [by left|done].
  - destruct (add_type env (types_cache s) (_get_args_type func))
      as [t'|e|]; [| |done].
    + destruct Hr as (_ & -> & _ & _ & -> & _). split; [by right|done].
    + rewrite Hr. split; [by right|done].
Qed.

Lemma step_default fuel env s op :
  dict_get (registry (step fuel env s op)) KObject
    = dict_get (registry s) KObject ∧
  funcname (step fuel env s op) = funcname s.
Proof.
  destruct op as [func force|args|classes|]; unfold step.
  - destruct (register_registry env s func force) as [[->|[_ ->]] ->];
      [done|].
    by rewrite dict_get_set_ne.
  - by destruct (wrapper_registry fuel env s args) as (-> & _ & ->).
  - by destruct (dispatch_registry fuel env s (ArgTuple classes))
      as (-> & _ & ->).
  - done.
Qed.

Lemma run_snoc s ops fuel env op :
  run s (ops ++ [(fuel, env, op)]) = step fuel env (run s ops) op.
Proof. unfold run. by rewrite foldl_app. Qed.

Lemma run_reachable s ops : reachable s → reachable (run s ops).
Proof.
  intros Hs. induction ops as [|[[fuel env] op] ops IH] using rev_ind; [done|].
  rewrite run_snoc. by apply reachable_step.
Qed.

Lemma run_keeps_default s ops :
  dict_get (registry (run s ops)) KObject = dict_get (registry s) KObject ∧
  funcname (run s ops) = funcname s.
Proof.
  induction ops as [|[[fuel env] op] ops [IH1 IH2]] using rev_ind; [done|].
  rewrite run_snoc.
  by destruct (step_default fuel env (run s ops) op) as [-> ->].
Qed.

(** X12.  Whatever is done with a generic function, the function that
    [multi_dispatch] decorated stays under [object] in the registry and
    keeps giving its name to the generic function: no registration, forced
    or not, replaces the default. *)
Theorem X12_default_is_never_replaced
    (func : Func) (ops : list (nat * ClassEnv * Op)) :
  dict_get (registry (run (multi_dispatch func) ops)) KObject = Some func ∧
  funcname (run (multi_dispatch func) ops) = func_name func.
Proof.
  induction ops as [|[[fuel env] op] ops [IH1 IH2]] using rev_ind; [done|].
  rewrite run_snoc.
  destruct (step_default fuel env (run (multi_dispatch func) ops) op)
    as [-> ->].
  done.
Qed.

(** X13.  An entry of the registry stays, under its key and with its
    implementation, through every operation but one: a forced
    registration of a function with the same signature, which puts that
    function in its place. *)
Theorem X13_registry_entries_stay
    (fuel : nat) (env : ClassEnv) (s : State) (op : Op) (k : PyKey) (f : Func) :
  dict_get (registry s) k = Some f →
  dict_get (registry (step fuel env s op)) k = Some f ∨
  ∃ func, op = OpRegister func true ∧ k = KTuple (_get_args_type func) ∧
          dict_get (registry (step fuel env s op)) k = Some func.
Proof.
  intros Hk. destruct op as [func force|args|classes|]; unfold step.
  - destruct (register_registry env s func force) as [[->|[Hforce ->]] _];
      [by left|].
    destruct (decide (KTuple (_get_args_type func) = k)) as [<-|Hne].
    + right. exists func. rewrite dict_get_set_eq.
      destruct Hforce as [->|Hnew]; [done|].
      destruct Hnew. apply dict_get_is_Some. by eexists.
    + left. by rewrite dict_get_set_ne.
  - left. by destruct (wrapper_registry fuel env s args) as (-> & _ & _).
  - left. by destruct (dispatch_registry fuel env s (ArgTuple classes))
      as (-> & _ & _).
  - by left.
Qed.

Lemma X13_registry_entries_stay_witness :
  let s := Zoo.registered [Zoo.A; Zoo.B] in
  let k := KTuple [Zoo.Dog; Zoo.wildcard] in
  dict_get (registry s) k = Some Zoo.A ∧
  (dict_get (registry (step 10 Zoo.zoo s (OpRegister Zoo.A2 true))) k = Some Zoo.A
   ∨ ∃ func, OpRegister Zoo.A2 true = OpRegister func true ∧
             k = KTuple (_get_args_type func) ∧
             dict_get (registry (step 10 Zoo.zoo s (OpRegister Zoo.A2 true))) k
               = Some func).
Proof.
  intros s k.
  assert (dict_get (registry s) k = Some Zoo.A) as Hk
    by (vm_compute; reflexivity).
  split; [done|].
  exact (X13_registry_entries_stay 10 Zoo.zoo s (OpRegister Zoo.A2 true) k _ Hk).
Defined.

(** X14.  A call, a direct [dispatch] and [_clear_cache] leave the
    registry and the trie as they are.  A registration that does not
    return its function has either left the whole state as it is (a
    duplicate, an invalid signature), or has raised in the insertion into
    the trie of a signature with an iterable element: then the entry of
    the registry is written and nothing else has changed. *)
Theorem X14_only_a_registration_writes
    (fuel : nat) (env : ClassEnv) (s : State) (op : Op) :
  match op with
  | OpRegister func force =>
      let cls := _get_args_type func in
      (register env s func force).2 = Ok func ∨
      step fuel env s op = s ∨
      ∃ e, (register env s func force).2 = Raise e ∧
           add_type env (types_cache s) cls = Raise e ∧
           ¬ not_iterable env cls ∧
           step fuel env s op
           = set_registry s (dict_set (registry s) (KTuple cls) func)
  | _ =>
      registry (step fuel env s op) = registry s ∧
      types_cache (step fuel env s op) = types_cache s
  end.
Proof.
  destruct op as [func force|args|classes|]; unfold step.
  - cbv zeta. set (cls := _get_args_type func).
    destruct (register_cases env s func force) as [[Hr|Hr]|[_ Hr]];
      cbv zeta in Hr; fold cls in Hr.
    + right. left. by rewrite Hr.
    + right. left. by rewrite Hr.
    + destruct (add_type env (types_cache s) cls) as [t'|e|] eqn:Ha;
        [| |done].
      * left. by destruct Hr as (-> & _).
      * right. right. exists e. rewrite Hr. split_and!; [done..| |done].
        intros Hp.
        destruct (add_type_from_returns env cls (types_cache s) cls Hp)
          as [t' Ht']. unfold add_type in Ha. congruence.
  - by destruct (wrapper_registry fuel env s args) as (-> & -> & _).
  - by destruct (dispatch_registry fuel env s (ArgTuple classes))
      as (-> & -> & _).
  - done.
Qed.

Lemma dispatch_fresh_state fuel env s id classes impl :
  dispatch_cache s !! id = None →
  _find_impl fuel env (ArgGenerator id classes) (registry s) (types_cache s)
    = Ok impl →
  (dispatch fuel env s (ArgGenerator id classes)).1
  = cache_setitem (check_token env s) (ArgGenerator id classes) impl.
Proof.
  intros Hfresh Hf. unfold dispatch. simpl.
  assert (dispatch_cache (check_token env s) !! id = None) as ->.
  { destruct (dispatch_cache (check_token env s) !! id) eqn:Hc; [|done].
    apply check_token_cache in Hc. congruence. }
  by rewrite check_token_registry, check_token_types_cache, Hf.
Qed.

(** X15.  The cache never answers a call: the key under which [wrapper]
    looks is a new one each time; a call that runs an implementation
    leaves it in the cache under that key. *)
Theorem X15_call_misses_the_cache_and_fills_it
    (fuel : nat) (env : ClassEnv) (s : State) (args : list Cls) (func : Func) :
  reachable s →
  (wrapper fuel env s args).2 = Ok func →
  dispatch_cache s !! next_id s = None ∧
  dispatch_cache (wrapper fuel env s args).1 !! next_id s = Some (Some func) ∧
  next_id (wrapper fuel env s args).1 = S (next_id s).
Proof.
  intros Hs%reachable_inv Hw.
  assert (dispatch_cache s !! next_id s = None) as Hfresh.
  { destruct (dispatch_cache s !! next_id s) eqn:Hl; [|done].
    apply (inv_cache_ids _ Hs) in Hl. lia. }
  split; [done|].
  pose proof (wrapper_resolve fuel env s args Hs) as Hres.
  rewrite Hw in Hres. unfold resolve in Hres.
  destruct args as [|c args]; [done|].
  destruct (_find_impl fuel env (ArgGenerator 0 (c :: args)) (registry s)
              (types_cache s)) as [[impl|]| |] eqn:Hf; simplify_eq/=.
  unfold wrapper.
  match goal with
  | |- context [dispatch fuel env ?s' ?cls] =>
      pose proof (dispatch_fresh_state fuel env s' (next_id s) (c :: args)
                    (Some impl) Hfresh Hf) as Hd;
      destruct (dispatch fuel env s' cls) as [s'' r]
  end.
  simpl in *. subst s''. simpl.
  rewrite lookup_insert_eq, check_token_next_id. done.
Qed.

Lemma X15_call_misses_the_cache_and_fills_it_witness :
  let s := Zoo.registered [Zoo.A; Zoo.B] in
  reachable s ∧
  (wrapper 10 Zoo.zoo s ["Dog"; "Cat"]).2 = Ok Zoo.B ∧
  dispatch_cache s !! next_id s = None ∧
  dispatch_cache (wrapper 10 Zoo.zoo s ["Dog"; "Cat"]).1 !! next_id s
    = Some (Some Zoo.B).
Proof.
  intros s.
  assert (reachable s) as Hs.
  { apply (reachable_step 0 Zoo.zoo _ (OpRegister Zoo.B false)),
      (reachable_step 0 Zoo.zoo _ (OpRegister Zoo.A false)), reachable_init. }
  assert ((wrapper 10 Zoo.zoo s ["Dog"; "Cat"]).2 = Ok Zoo.B) as Hw
    by (vm_compute; reflexivity).
  destruct (X15_call_misses_the_cache_and_fills_it
              10 Zoo.zoo s ["Dog"; "Cat"] Zoo.B Hs Hw) as (H1 & H2 & _).
  split_and!; [done..|exact H1|exact H2].
Defined.

(** X16.  A call whose argument classes can be linearized and whose trie
    search does not end on a node without signature runs an implementation
    of the registry: the one under the key that the search gives. *)
Theorem X16_call_runs_a_registered_implementation
    (fuel : nat) (env : ClassEnv) (s : State) (args : list Cls)
    (mros : list (list Cls)) :
  reachable s → args ≠ [] →
  mapM (λ c, _compose_mro env fuel c (registered_types (registry s))) args
    = Ok mros →
  getitem (types_cache s) (map (map OClass) mros) ≠ KNone →
  ∃ func,
    (wrapper fuel env s args).2 = Ok func ∧
    dict_get (registry s) (getitem (types_cache s) (map (map OClass) mros))
      = Some func.
Proof. apply wrapper_total_on_finished_walks. Qed.

Lemma X16_call_runs_a_registered_implementation_witness :
  let s := Zoo.registered [Zoo.A; Zoo.B] in
  let mros := [["Dog"; "Animal"; "object"]; ["Bird"; "object"]] in
  reachable s ∧
  mapM (λ c, _compose_mro Zoo.zoo 10 c (registered_types (registry s)))
       ["Dog"; "Bird"] = Ok mros ∧
  getitem (types_cache s) (map (map OClass) mros) ≠ KNone ∧
  ∃ func,
    (wrapper 10 Zoo.zoo s ["Dog"; "Bird"]).2 = Ok func ∧
    dict_get (registry s) (getitem (types_cache s) (map (map OClass) mros))
      = Some func.
Proof.
  intros s mros.
  assert (reachable s) as Hs.
  { apply (reachable_step 0 Zoo.zoo _ (OpRegister Zoo.B false)),
      (reachable_step 0 Zoo.zoo _ (OpRegister Zoo.A false)), reachable_init. }
  assert (mapM (λ c, _compose_mro Zoo.zoo 10 c (registered_types (registry s)))
               ["Dog"; "Bird"] = Ok mros) as Hm by (vm_compute; reflexivity).
  assert (getitem (types_cache s) (map (map OClass) mros) ≠ KNone) as Hne
    by (vm_compute; discriminate).
  split_and!; [done..|].
  apply (X16_call_runs_a_registered_implementation
           10 Zoo.zoo s ["Dog"; "Bird"] mros Hs); [discriminate|done..].
Defined.

(** X17.  Every signature that a lookup in the trie of a generic function
    returns is a key of its registry and consists of classes. *)
Theorem X17_lookup_gives_registered_signatures
    (s : State) (candidates : list (list Obj)) (t : list Obj) :
  reachable s →
  getitem (types_cache s) candidates = KTuple t →
  KTuple t ∈ dict_keys (registry s) ∧
  Forall (λ c, ∃ k, c = OClass k) t.
Proof.
  intros Hs%reachable_inv (p & n & Hat & Hseq)%getitem_from_node_at.
  pose proof (inv_trie_keys _ Hs _ _ _ Hat Hseq) as Hk. split; [done|].
  eapply Forall_impl; [by apply (inv_registry_valid _ Hs)|].
  intros [k| |] Hv; [by exists k|done..].
Qed.

Lemma X17_lookup_gives_registered_signatures_witness :
  let s := Zoo.registered [Zoo.A; Zoo.B] in
  let candidates := [[Zoo.Dog; Zoo.Animal; OClass object];
                     [Zoo.Bird; OClass object]] in
  reachable s ∧
  getitem (types_cache s) candidates = KTuple [Zoo.Dog; Zoo.Cat] ∧
  KTuple [Zoo.Dog; Zoo.Cat] ∈ dict_keys (registry s).
Proof.
  intros s candidates.
  assert (reachable s) as Hs.
  { apply (reachable_step 0 Zoo.zoo _ (OpRegister Zoo.B false)),
      (reachable_step 0 Zoo.zoo _ (OpRegister Zoo.A false)), reachable_init. }
  assert (getitem (types_cache s) candidates = KTuple [Zoo.Dog; Zoo.Cat])
    as Hg by (vm_compute; reflexivity).
  split_and!; [done..|].
  exact (proj1 (X17_lookup_gives_registered_signatures s candidates _ Hs Hg)).
Defined.

(** X18.  Whatever has been registered, a call whose trie search finds no
    child at some position runs the function that [multi_dispatch]
    decorated. *)
Theorem X18_unmatched_call_runs_the_default
    (func : Func) (ops : list (nat * ClassEnv * Op))
    (fuel : nat) (env : ClassEnv) (args : list Cls) (mros : list (list Cls)) :
  let s := run (multi_dispatch func) ops in
  mapM (λ c, _compose_mro env fuel c (registered_types (registry s))) args
    = Ok mros →
  getitem (types_cache s) (map (map OClass) mros) = KObject →
  (wrapper fuel env s args).2 = Ok func.
Proof.
  intros s Hm Hg.
  assert (reachable s) as Hs by apply run_reachable, reachable_init.
  destruct (run_keeps_default (multi_dispatch func) ops) as [Hd _].
  fold s in Hd. simpl in Hd.
  destruct args as [|c args].
  - simpl in Hm. injection Hm as <-. unfold getitem in Hg. simpl in Hg.
    by destruct (seq (types_cache s)).
  - rewrite wrapper_resolve by (by apply reachable_inv).
    unfold resolve, _find_impl. simpl in *. rewrite Hm. simpl.
    by rewrite Hg, Hd.
Qed.

Lemma X18_unmatched_call_runs_the_default_witness :
  let ops := [(0, Zoo.zoo, OpRegister Zoo.A false);
              (0, Zoo.zoo, OpRegister Zoo.B false)] in
  let s := run (multi_dispatch Zoo.D) ops in
  let mros := [["Bird"; "object"]; ["Cat"; "object"]] in
  mapM (λ c, _compose_mro Zoo.zoo 10 c (registered_types (registry s)))
       ["Bird"; "Cat"] = Ok mros ∧
  getitem (types_cache s) (map (map OClass) mros) = KObject ∧
  (wrapper 10 Zoo.zoo s ["Bird"; "Cat"]).2 = Ok Zoo.D.
Proof.
  intros ops s mros.
  assert (mapM (λ c, _compose_mro Zoo.zoo 10 c (registered_types (registry s)))
               ["Bird"; "Cat"] = Ok mros) as Hm by (vm_compute; reflexivity).
  assert (getitem (types_cache s) (map (map OClass) mros) = KObject) as Hg
    by (vm_compute; reflexivity).
  split_and!; [done..|].
  exact (X18_unmatched_call_runs_the_default
           Zoo.D ops 10 Zoo.zoo ["Bird"; "Cat"] mros Hm Hg).
Defined.

(** X19.  When the token that the generic function remembers is not the
    current one of the class graph, [dispatch] forgets every cached
    implementation before it looks: afterwards the remembered token is the
    current one and the cache holds nothing but the entry of this very
    call. *)
Theorem X19_stale_token_empties_the_cache
    (fuel : nat) (env : ClassEnv) (s : State) (cls : DispatchArg) (token : nat) :
  cache_token s = Some token →
  token ≠ get_cache_token env →
  let s' := (dispatch fuel env s cls).1 in
  cache_token s' = Some (get_cache_token env) ∧
  ∀ id, is_Some (dispatch_cache s' !! id) →
        ∃ classes, cls = ArgGenerator id classes.
Proof.
  intros Htoken Hne s'. unfold s', dispatch.
  assert (check_token env s
          = set_cache_token (set_dispatch_cache s ∅) (Some (get_cache_token env)))
    as ->.
  { unfold check_token. rewrite Htoken. by rewrite decide_True. }
  destruct cls as [id classes|classes]; simpl.
  - rewrite lookup_empty.
    destruct (_find_impl _ _ _ _ _) as [impl| |]; simpl.
    + split; [done|]. intros id' Hid'.
      destruct (decide (id = id')) as [<-|Hne']; [by exists classes|].
      rewrite lookup_insert_ne, lookup_empty in Hid' by done.
      by destruct Hid'.
    + split; [done|]. intros id'. rewrite lookup_empty. by intros [??].
    + split; [done|]. intros id'. rewrite lookup_empty. by intros [??].
  - split; [done|]. intros id'. rewrite lookup_empty. by intros [??].
Qed.

End generic_function_properties.

Lemma X19_stale_token_empties_the_cache_witness :
  let s := (wrapper 5 Ponds.ponds Ponds.registered ["B1"]).1 in
  let s' := (dispatch 5 ponds_later s (ArgGenerator 1 ["B2"])).1 in
  cache_token s = Some 4 ∧
  4 ≠ get_cache_token ponds_later ∧
  is_Some (dispatch_cache s !! 0) ∧
  cache_token s' = Some 5 ∧
  dispatch_cache s' !! 0 = None.
Proof.
  intros s s'.
  assert (cache_token s = Some 4) as Ht by (vm_compute; reflexivity).
  assert (4 ≠ get_cache_token ponds_later) as Hne by (vm_compute; lia).
  destruct (X19_stale_token_empties_the_cache
              5 ponds_later s (ArgGenerator 1 ["B2"]) 4 Ht Hne) as [Htok Hc].
  split_and!; [done..| |exact Htok|].
  - vm_compute. by eexists.
  - destruct (dispatch_cache s' !! 0) as [o|] eqn:H0; [|done].
    by destruct (Hc 0 (ex_intro _ o H0)) as [classes [=]].
Defined.

(** ** The pool of types and the plain classes *)

Section pool_and_plain_classes.

(** X20.  The types that [_find_impl] hands to the linearizer are the
    elements of the registered signatures, each once; the entry under
    [object] brings none. *)
Theorem X20_registered_types_are_the_signature_elements
    (registry : list (PyKey * Func)) :
  NoDup (registered_types registry) ∧
  ∀ x, x ∈ registered_types registry ↔
       ∃ t, KTuple t ∈ dict_keys registry ∧ x ∈ t.
Proof.
  unfold registered_types. split; [apply NoDup_remove_dups|].
  intros x. rewrite elem_of_remove_dups, list_elem_of_join. split.
  - intros (l & Hx & (k & -> & Hk)%list_elem_of_fmap).
    apply list_elem_of_filter in Hk as [_ Hk].
    destruct k as [| |t]; [by apply elem_of_nil in Hx..|]. by exists t.
  - intros (t & Ht & Hx). exists t. split; [done|].
    apply list_elem_of_fmap. exists (KTuple t). split; [done|].
    by apply list_elem_of_filter.
Qed.

(** X21.  When no class of [types] is a superclass of [cls] outside
    [cls.__mro__], [_compose_mro] linearizes [cls] as if [types] were
    empty. *)
Theorem X21_unrelated_types_are_ignored
    (env : ClassEnv) (fuel : nat) (cls : Cls) (types : list Obj) :
  (∀ t, OClass t ∈ types → t ∈ mro env cls ∨ issubclass env cls t = false) →
  _compose_mro env fuel cls types = _c3_mro env fuel cls [].
Proof.
  intros Hun. rewrite compose_mro_composed.
  destruct (composed_abcs env cls types) as [|t abcs] eqn:Hc; [done|].
  assert (t ∈ composed_abcs env cls types) as Ht by (rewrite Hc; by left).
  apply composed_abcs_related in Ht as (Hin & Hmro & Hsub).
  destruct (Hun t Hin); [done|congruence].
Qed.

Lemma X21_unrelated_types_are_ignored_witness :
  let types := [Zoo.Dog; Zoo.wildcard; Zoo.Cat] in
  (∀ t, OClass t ∈ types →
        t ∈ mro Zoo.zoo "Dog" ∨ issubclass Zoo.zoo "Dog" t = false) ∧
  _compose_mro Zoo.zoo 5 "Dog" types = _c3_mro Zoo.zoo 5 "Dog" [].
Proof.
  intros types.
  assert (∀ t, OClass t ∈ types →
            t ∈ mro Zoo.zoo "Dog" ∨ issubclass Zoo.zoo "Dog" t = false) as Hun.
  { intros t Ht. unfold types in Ht.
    rewrite !elem_of_cons, elem_of_nil in Ht.
    destruct Ht as [[= ->]|[[= ->]|[[= ->]|[]]]].
    - left. apply (bool_decide_unpack _). vm_compute. reflexivity.
    - right. vm_compute. reflexivity.
    - right. vm_compute. reflexivity. }
  split; [done|].
  exact (X21_unrelated_types_are_ignored Zoo.zoo 5 "Dog" types Hun).
Defined.

Import C3.

Lemma purge_idemp sequences : purge (purge sequences) = purge sequences.
Proof.
  unfold purge. induction sequences as [|s l IH]; [done|].
  rewrite filter_cons. destruct (decide (s ≠ [])).
  - rewrite filter_cons, decide_True by done. by rewrite IH.
  - done.
Qed.

Lemma c3_merge_purge sequences :
  _c3_merge sequences = _c3_merge (purge sequences).
Proof.
  unfold _c3_merge. rewrite total_purge.
  cbn [loop]. unfold turn. by rewrite purge_idemp.
Qed.

Lemma mapM_Ok_fmap {A B} (f : A → Res B) (g : A → B) l :
  (∀ x, x ∈ l → f x = Ok (g x)) → mapM f l = Ok (g <$> l).
Proof.
  induction l as [|x l IH]; intros Hl; simpl; [done|].
  rewrite Hl by (by left). simpl. rewrite IH; [done|].
  intros y ?. apply Hl. by right.
Qed.

(** X22.  On classes none of which has [__abstractmethods__], with no
    abstract base classes given, [_c3_mro] returns the order that Python
    computed itself ([cls.__mro__]), as soon as its recursion may go
    deeper than the rank of the class. *)
Theorem X22_c3_mro_is_the_native_order_on_plain_classes
    (env : ClassEnv) (rank : Cls → nat) (fuel : nat) (cls : Cls) :
  (∀ c, has_abstractmethods env c = false) →
  native_mro env →
  (∀ c b, b ∈ bases env c → rank b < rank c) →
  rank cls < fuel →
  _c3_mro env fuel cls [] = Ok (mro env cls).
Proof.
  intros Hplain Hnative Hrank. revert cls.
  induction fuel as [|fuel IH]; intros cls Hfuel; [lia|].
  assert (boundary env cls = 0) as Hb.
  { unfold boundary.
    destruct (list_find _ _) as [[i base]|] eqn:Hf; [|done].
    apply list_find_Some in Hf as (_ & Hbase & _).
    by rewrite Hplain in Hbase. }
  assert (explicit_bases env cls = []) as He
    by (unfold explicit_bases; by rewrite Hb).
  assert (other_bases env cls = bases env cls) as Ho
    by (unfold other_bases; by rewrite Hb).
  assert (mapM (λ base, _c3_mro env fuel base []) (bases env cls)
          = Ok (mro env <$> bases env cls)) as Hm.
  { apply mapM_Ok_fmap. intros b Hbase%Hrank. apply IH. lia. }
  cbn [_c3_mro]. unfold remaining_abcs, abstract_bases.
  rewrite He, Ho. cbn [filter list_filter foldl mapM]. simpl mbind.
  rewrite Hm. simpl mbind.
  rewrite c3_merge_purge, <-(Hnative cls), (c3_merge_purge (_ ++ _)).
  f_equal. unfold purge. cbn [app]. rewrite !filter_cons_True by done.
  f_equal. by rewrite !filter_app.
Qed.

End pool_and_plain_classes.

Lemma zoo_plain c : has_abstractmethods Zoo.zoo c = false.
Proof. done. Qed.

Lemma zoo_native : native_mro Zoo.zoo.
Proof.
  intros c. simpl. unfold Zoo.zoo_bases, Zoo.zoo_mro.
  destruct (decide (c = "object")) as [->|Hobject]; [by vm_compute|].
  destruct (decide (c = "Dog")) as [->|Hdog]; [by vm_compute|].
  unfold _c3_merge. cbn [C3.loop]. unfold C3.turn.
  cbn [fmap list_fmap app C3.purge filter list_filter].
  rewrite !decide_True by done.
  cbn [C3.find_candidate C3.rejected existsb tail].
  rewrite !bool_decide_eq_false_2 by (by intros ?%elem_of_nil).
  cbn [orb C3.remove_candidate map].
  rewrite bool_decide_eq_true_2 by done.
  rewrite !bool_decide_eq_false_2 by done.
  by vm_compute.
Qed.

Lemma X22_c3_mro_is_the_native_order_on_plain_classes_witness :
  (∀ c, has_abstractmethods Zoo.zoo c = false) ∧
  native_mro Zoo.zoo ∧
  (∀ c b, b ∈ bases Zoo.zoo c → zoo_rank b < zoo_rank c) ∧
  zoo_rank "Dog" < 3 ∧
  _c3_mro Zoo.zoo 3 "Dog" [] = Ok ["Dog"; "Animal"; "object"].
Proof.
  assert (zoo_rank "Dog" < 3) as Hfuel by (vm_compute; lia).
  split_and!; [exact zoo_plain|exact zoo_native|exact zoo_rank_bases|done|].
  exact (X22_c3_mro_is_the_native_order_on_plain_classes
           Zoo.zoo zoo_rank 3 "Dog" zoo_plain zoo_native zoo_rank_bases Hfuel).
Defined.

(** ** Inserting twice *)

Section insert_twice.
Implicit Types (env : ClassEnv) (n : Node) (parts types : list Obj).

(** An insertion that returns, of a quiet signature whose walk ends on
    the node that already keeps it, changes nothing. *)
Lemma add_type_from_same env parts : ∀ n types path n',
  quiet env parts →
  route n parts = Some path →
  seq <$> node_at n path = Some (Some types) →
  add_type_from env n parts types = Ok n' → n' = n.
Proof.
  induction parts as [|part parts IH]; intros n types path n' Hp.
  - intros [= <-]. simpl. intros [= Hs] [= <-].
    destruct n. simpl in *. by subst.
  - apply Forall_cons in Hp as [Hpart Hparts].
    intros Hr Hs Ha%add_type_from_quiet_inv; [|done]. revert Hr Hs Ha.
    cbn [route].
    destruct (list_find _ _) as [[i child]|] eqn:Hf; [|done].
    destruct (route child parts) as [path'|] eqn:Hr; [|done].
    intros [= <-]. apply list_find_lookup in Hf. simpl. rewrite Hf.
    intros Hs (child' & Ha & ->).
    rewrite (IH child types path' child' Hparts Hr Hs Ha).
    rewrite list_insert_id by done. by destruct n.
Qed.

Lemma add_type_from_settled env parts n types path :
  not_iterable env parts →
  route n parts = Some path →
  seq <$> node_at n path = Some (Some types) →
  add_type_from env n parts types = Ok n.
Proof.
  intros Hp Hr Hs.
  destruct (add_type_from_returns env parts n types Hp) as [n' Ha].
  rewrite Ha. f_equal.
  by eapply add_type_from_same; [apply not_iterable_quiet|..].
Qed.

(** X23.  Inserting a quiet signature a second time, right after the
    first: when the second insertion returns, the trie is as the first
    insertion made it; and for a signature without iterable element it
    does return.  (An insertion that raises writes nothing.) *)
Theorem X23_insertion_twice_is_insertion_once
    (env : ClassEnv) (t t' : TypeTree) (types : list Obj) :
  quiet env types →
  add_type env t types = Ok t' →
  (∀ t'', add_type env t' types = Ok t'' → t'' = t') ∧
  (not_iterable env types → add_type env t' types = Ok t').
Proof.
  intros Hp Ha.
  destruct (add_type_from_routes _ _ _ _ _ Hp Ha) as (path & Hr & Hs).
  split.
  - intros t'' Ha'. by eapply add_type_from_same.
  - intros Hp'. by eapply add_type_from_settled.
Qed.

Lemma X23_insertion_twice_is_insertion_once_witness :
  ∃ t t',
    build_tree Zoo.zoo TypeTree_new [[Zoo.Dog; Zoo.wildcard]] = Ok t ∧
    let types := [Zoo.Dog; Zoo.Cat] in
    quiet Zoo.zoo types ∧
    add_type Zoo.zoo t types = Ok t' ∧
    add_type Zoo.zoo t' types = Ok t'.
Proof.
  eexists _, _. split; [reflexivity|]. intros types.
  assert (quiet Zoo.zoo types) as Hp by apply zoo_quiet.
  match goal with
  | |- _ ∧ add_type _ ?t _ = _ ∧ _ =>
      split; [done|]; split; [reflexivity|];
      apply (proj2 (X23_insertion_twice_is_insertion_once
                      Zoo.zoo t _ types Hp eq_refl)
                   (zoo_not_iterable types))
  end.
Defined.

End insert_twice.

(** ** Registering again *)

Section register_again.

(** X24.  A forced registration for a signature without iterable element
    that the trie, built of quiet signatures, still keeps at a node
    returns and leaves the trie as it is: it changes the entry of the
    registry and empties the cache, nothing else but (when the signature
    has an abstract class and none was seen before) the remembered
    token. *)
Theorem X24_forced_registration_keeps_the_trie
    (env : ClassEnv) (s : State) (func : Func) (path : list nat) :
  reachable s →
  built quiet (types_cache s) →
  not_iterable env (_get_args_type func) →
  seq <$> node_at (types_cache s) path = Some (Some (_get_args_type func)) →
  let s' := (register env s func true).1 in
  (register env s func true).2 = Ok func ∧
  types_cache s' = types_cache s ∧
  registry s' = dict_set (registry s) (KTuple (_get_args_type func)) func ∧
  dispatch_cache s' = ∅ ∧
  funcname s' = funcname s ∧ next_id s' = next_id s.
Proof.
  intros Hs Hb Hp Hseq s'.
  pose proof (reachable_inv s Hs) as Hinv.
  destruct (node_at (types_cache s) path) as [n|] eqn:Hat; [|done].
  simpl in Hseq. injection Hseq as Hseq.
  assert (route (types_cache s) (_get_args_type func) = Some path) as Hr.
  { by apply (built_routed _ Hb path n). }
  assert (add_type env (types_cache s) (_get_args_type func)
          = Ok (types_cache s)) as Hsame.
  { unfold add_type. eapply add_type_from_settled; [done..|].
    by rewrite Hat, <-Hseq. }
  pose proof (register_written env s func true (or_introl eq_refl)) as Hw.
  cbv zeta in Hw. rewrite Hsame in Hw.
  destruct Hw as (H1 & H2 & H3 & H4 & H5 & H6).
  { by eapply (inv_registry_valid _ Hinv), (inv_trie_keys _ Hinv). }
  unfold s'. by rewrite H1, H2, H3, H4, H5, H6.
Qed.

Lemma X24_forced_registration_keeps_the_trie_witness :
  let s := Zoo.registered [Zoo.A] in
  reachable s ∧
  built quiet (types_cache s) ∧
  not_iterable Zoo.zoo (_get_args_type Zoo.A2) ∧
  seq <$> node_at (types_cache s) [0; 0]
    = Some (Some (_get_args_type Zoo.A2)) ∧
  (register Zoo.zoo s Zoo.A2 true).2 = Ok Zoo.A2 ∧
  types_cache (register Zoo.zoo s Zoo.A2 true).1 = types_cache s.
Proof.
  intros s.
  assert (reachable s) as Hs.
  { apply (reachable_step 0 Zoo.zoo _ (OpRegister Zoo.A false)), reachable_init. }
  assert (built quiet (types_cache s)) as Hb.
  { eapply (built_add _ Zoo.zoo TypeTree_new (_get_args_type Zoo.A));
      [apply built_new|apply zoo_quiet|reflexivity]. }
  assert (not_iterable Zoo.zoo (_get_args_type Zoo.A2)) as Hp
    by apply zoo_not_iterable.
  assert (seq <$> node_at (types_cache s) [0; 0]
          = Some (Some (_get_args_type Zoo.A2))) as Hseq
    by (vm_compute; reflexivity).
  destruct (X24_forced_registration_keeps_the_trie
              Zoo.zoo s Zoo.A2 [0; 0] Hs Hb Hp Hseq) as (H1 & H2 & _).
  split_and!; [done..|exact H1|exact H2].
Defined.

(** *** An iterable element for which [node in value] returns *)

(** Why the statements above are about quiet signatures.  The metaclass
    of [Plugin] makes the class iterable without raising in
    [node in Plugin].  With [on_pa] and [on_plugin] registered, the forced
    registration of [on_plugin2] for [(Plugin,)] returns, but [Node.get]
    gives the node of [PA], the first child that is in [Plugin], not the
    child equal to [Plugin]: the signature [(Plugin,)] is then at two
    nodes, [(PA,)] at none, and a call on a [PA] runs [on_plugin2] though
    [on_pa] is still in the registry. *)
Lemma iterable_element_takes_another_node :
  let r := register Plugins.plugins Plugins.registered Plugins.on_plugin2 true in
  r.2 = Ok Plugins.on_plugin2 ∧
  value <$> node_at (types_cache r.1) [0] = Some (Some Plugins.PA) ∧
  seq <$> node_at (types_cache r.1) [0] = Some (Some [Plugins.Plugin]) ∧
  seq <$> node_at (types_cache r.1) [1] = Some (Some [Plugins.Plugin]) ∧
  ¬ quiet_part Plugins.plugins Plugins.Plugin ∧
  dict_get (registry r.1) (KTuple [Plugins.PA]) = Some Plugins.on_pa ∧
  (wrapper 10 Plugins.plugins Plugins.registered ["PA"]).2 = Ok Plugins.on_pa ∧
  (wrapper 10 Plugins.plugins r.1 ["PA"]).2 = Ok Plugins.on_plugin2.
Proof.
  split_and!; try by vm_compute.
  intros [Hit|Hin]; [by vm_compute in Hit|].
  by destruct (Hin TypeTree_new) as [e He].
Qed.

(** *** A registration that raises in the trie *)

Lemma add_type_from_raises env pre : ∀ n path n0 c cs part post types e,
  not_iterable env pre →
  route n pre = Some path →
  node_at n path = Some n0 →
  Node_contains n0 part = true →
  isinstance_Iterable env part = true →
  children n0 = c :: cs →
  node_in env c part = inl e →
  add_type_from env n (pre ++ part :: post) types = Raise e.
Proof.
  induction pre as [|part0 pre IH];
    intros n path n0 c cs part post types e Hp.
  - intros [= <-] [= <-] Hc Hit Hcs Hin. cbn [app add_type_from].
    rewrite Hc. unfold Node_get. rewrite Hit, Hcs. cbn [children_in].
    by rewrite Hin.
  - apply Forall_cons in Hp as [Hpart Hparts]. cbn [route].
    destruct (list_find _ _) as [[i child]|] eqn:Hf; [|done].
    destruct (route child pre) as [path'|] eqn:Hr; [|done].
    intros [= <-]. cbn [node_at].
    rewrite (list_find_lookup _ _ _ _ Hf).
    intros Hat Hc Hit Hcs Hin.
    rewrite <-app_comm_cons, add_type_from_plain_cons, Hf by done.
    by rewrite (IH child path' n0 c cs part post types e).
Qed.

(** X25.  A registration raises in the trie when the walk of its
    signature comes, through elements that are not iterable, to a node
    that has a child equal to the next element, this element is iterable,
    and [node in value] raises for the first child of the node (so for an
    [Enum] class that the trie already has at this place).  [register]
    raises that exception after it has written the entry of the registry;
    the trie, the cache and the token are as they were. *)
Theorem X25_registration_raises_on_iterable_element
    (env : ClassEnv) (s : State) (func : Func) (force : bool)
    (pre post : list Obj) (part : Obj) (path : list nat)
    (n c : Node) (cs : list Node) (e : Exn) :
  let cls := _get_args_type func in
  cls = pre ++ part :: post →
  Forall (λ c, _is_valid_dispatch_type c = true) cls →
  force = true ∨ KTuple cls ∉ dict_keys (registry s) →
  not_iterable env pre →
  route (types_cache s) pre = Some path →
  node_at (types_cache s) path = Some n →
  Node_contains n part = true →
  isinstance_Iterable env part = true →
  children n = c :: cs →
  node_in env c part = inl e →
  register env s func force
  = (set_registry s (dict_set (registry s) (KTuple cls) func), Raise e).
Proof.
  intros cls Hcls Hvalid Hforce Hp Hr Hat Hc Hit Hcs Hin.
  pose proof (register_written env s func force Hforce Hvalid) as Hw.
  cbv zeta in Hw. fold cls in Hw.
  assert (add_type env (types_cache s) cls = Raise e) as Ha.
  { unfold add_type. rewrite Hcls at 1. by eapply add_type_from_raises. }
  by rewrite Ha in Hw.
Qed.

Lemma X25_registration_raises_on_iterable_element_witness :
  let s := Palette.painted in
  let cls := _get_args_type Palette.repaint in
  cls = [] ++ Palette.Color :: [] ∧
  Forall (λ c, _is_valid_dispatch_type c = true) cls ∧
  not_iterable Palette.palette [] ∧
  route (types_cache s) [] = Some [] ∧
  Node_contains (types_cache s) Palette.Color = true ∧
  isinstance_Iterable Palette.palette Palette.Color = true ∧
  register Palette.palette s Palette.repaint true
  = (set_registry s (dict_set (registry s) (KTuple cls) Palette.repaint),
     Raise Palette.enum_error) ∧
  dict_get (registry s) (KTuple cls) = Some Palette.paint.
Proof.
  intros s cls.
  assert (cls = [] ++ Palette.Color :: []) as Hcls by reflexivity.
  assert (Forall (λ c, _is_valid_dispatch_type c = true) cls) as Hvalid
    by (by repeat constructor).
  assert (not_iterable Palette.palette []) as Hp by constructor.
  assert (route (types_cache s) [] = Some []) as Hr by reflexivity.
  assert (Node_contains (types_cache s) Palette.Color = true) as Hc
    by (vm_compute; reflexivity).
  assert (isinstance_Iterable Palette.palette Palette.Color = true) as Hit
    by (vm_compute; reflexivity).
  split_and!; [done..| |by vm_compute].
  eapply (X25_registration_raises_on_iterable_element
            Palette.palette s Palette.repaint true [] [] Palette.Color []
            (types_cache s) _ _ Palette.enum_error Hcls Hvalid
            (or_introl eq_refl) Hp Hr eq_refl Hc Hit);
    [vm_compute; reflexivity|reflexivity].
Defined.

End register_again.
